(** * TMP2 temperature-sensor driver (python/pyxi/pmods/tmp2.py)

    A shallow embedding of the [TMP2] class: the register-to-float
    decoder [_reg2float] and the mailbox protocol of [read],
    [set_log_ms], [start_log], [stop_log] and [print_log].

    Numbers.  Python 3 integers are unbounded, so they are [Z]; [&] and
    [>>] are [Z.land] and [Z.shiftr] (both act on the infinite
    two's-complement expansion, as Python's do) and [/] is true division.
    Every float the decoder computes before formatting is a dyadic
    rational with at most 24 significant bits and a binary exponent
    between -150 and 105 ([result_dyadic]), which binary64 holds
    exactly; the decoder is therefore modelled in [Q], and module
    [Binary64] evaluates the same expression with the IEEE operations;
    the two are proved equal ([binary64_exact], [binary64_reg2float]).  The decimal string
    produced by [format] is modelled by the integer number of tenths it
    denotes, and [float(...)] of that string by the decimal itself, so
    the two zeros of binary64 are not told apart.

    Effects.  The methods run in a monad over a [world]: the instance
    attributes, the trace of mailbox accesses and printed lines, and the
    number of reads made so far.  An outcome is a returned value, a
    raised exception, or [Spins] for a polling loop that has used up the
    iterations it was given. *)

From Stdlib Require Import ZArith QArith Qabs Qpower Qfield Lia List String Bool.
From Stdlib Require Import Floats.SpecFloat.
Import ListNotations.
Local Open Scope Z_scope.

(** ** Register decoding *)

Module Decode.

(** [sign = (reg & 0x80000000) >> 31 & 0x01] *)
Definition sign (reg : Z) : Z :=
  Z.land (Z.shiftr (Z.land reg 0x80000000) 31) 0x01.

(** [exp = ((reg & 0x7f800000) >> 23) - 127] *)
Definition exp (reg : Z) : Z :=
  Z.shiftr (Z.land reg 0x7f800000) 23 - 127.

(** The mantissa field [reg & 0x007fffff]. *)
Definition mantissa (reg : Z) : Z := Z.land reg 0x007fffff.

(** [pow(2, e)]: an integer for [e >= 0], the float [2.0 ** e] below;
    a power of two either way. *)
Definition pow2 (e : Z) : Q := Qpower (2 # 1) e.

(** [man]: the branch on the debiased exponent, line 222. *)
Definition man (reg : Z) : Q :=
  if exp reg =? 0
  then (inject_Z (mantissa reg) / pow2 23)%Q
  else (1 + inject_Z (mantissa reg) / pow2 23)%Q.

(** [result = pow(2,exp)*(man)*((sign*-2) +1)] *)
Definition result (reg : Z) : Q :=
  (pow2 (exp reg) * man reg * inject_Z (sign reg * -2 + 1))%Q.

(** Nearest integer to [n / d] for [0 < d], ties to the even one. *)
Definition round_half_even (n d : Z) : Z :=
  let q := n / d in
  let r := n mod d in
  if 2 * r <? d then q
  else if d <? 2 * r then q + 1
  else if Z.even q then q else q + 1.

(** ["{0:.1f}".format(x)]: Python prints the decimal with one fractional
    digit nearest to the exact value of the float, ties to even.  The
    string is represented by its number of tenths. *)
Definition format_1f (x : Q) : Z :=
  round_half_even (Qnum x * 10) (Zpos (Qden x)).

(** [float(s)] of a one-decimal string: the decimal it denotes. *)
Definition float_of_tenths (t : Z) : Q := t # 10.

Definition _reg2float (reg : Z) : Q :=
  if reg =? 0 then 0%Q
  else float_of_tenths (format_1f (result reg)).



End Decode.

Import Decode.

(** ** Bit fields *)

(** The field [bits[hi:lo]] of a word, as the specification names it. *)
Definition bits (hi lo reg : Z) : Z := (reg / 2 ^ lo) mod 2 ^ (hi - lo + 1).


(** ** The same arithmetic, operation by operation, in binary64 *)

(** The expression of line 226 evaluated with the IEEE 754 double
    precision operations of Python floats: integers are converted when
    they meet a float, [pow(2, e)] is an integer for [e >= 0] and the
    float [2.0 ** e] otherwise, and [/] between integers is the correctly
    rounded quotient. *)
Module Binary64.

Definition prec : Z := 53.
Definition emax : Z := 1024.

Definition of_int (n : Z) : spec_float := binary_normalize prec emax n 0 false.
Definition mul : spec_float -> spec_float -> spec_float := SFmul prec emax.
Definition add : spec_float -> spec_float -> spec_float := SFadd prec emax.
Definition div : spec_float -> spec_float -> spec_float := SFdiv prec emax.

Definition pow_2 (e : Z) : spec_float :=
  if 0 <=? e then of_int (2 ^ e) else SFldexp prec emax (of_int 1) e.

Definition man (reg : Z) : spec_float :=
  if exp reg =? 0
  then div (of_int (mantissa reg)) (of_int (2 ^ 23))
  else add (of_int 1) (div (of_int (mantissa reg)) (of_int (2 ^ 23))).

Definition result (reg : Z) : spec_float :=
  mul (mul (pow_2 (exp reg)) (man reg)) (of_int (sign reg * -2 + 1)).

(** The number a finite float stands for. *)
Definition to_Q (x : spec_float) : option Q :=
  match x with
  | S754_zero _ => Some 0%Q
  | S754_finite s m e => Some (inject_Z (cond_Zopp s (Zpos m)) * pow2 e)%Q
  | _ => None
  end.

(** [_reg2float] with the product of line 226 computed in binary64; the
    formatting acts on the exact value of the float. *)
Definition _reg2float (reg : Z) : option Q :=
  if reg =? 0 then Some 0%Q
  else option_map (fun q => float_of_tenths (format_1f q)) (to_Q (result reg)).

End Binary64.

(** Abbreviations for the rounding steps the operations go through. *)
Definition bra := binary_round_aux 53 1024.
Definition b64_round := binary_round 53 1024.
Definition b64_mul := SFmul 53 1024.
Definition b64_ldexp := SFldexp 53 1024.

(** The value [m * 2^e] of a mantissa and exponent, scaled by a fixed
    power of two so that it is an integer for all exponents in use. *)
Definition bias : Z := 2000.
Definition scaled (m e : Z) : Z := m * 2 ^ (e + bias).

(** [x] is a finite binary64 number with sign [s] and magnitude
    [c * 2^v]. *)
Definition repr (x : spec_float) (s : bool) (c v : Z) : Prop :=
  exists m e,
    x = S754_finite s m e /\ Zpos m < 2 ^ 53 /\ -1074 <= e /\
    scaled (Zpos m) e = scaled c v.

(** * The driver *)

(** ** Platform *)

(** Python exceptions the driver can meet. *)
Inductive exn : Type :=
| ValueError (msg : string)
| AttributeError (attr : string)
| AllocationError.

(** Modelled from the spec: the modules [pmod_const], [_iop] and
    [pyxi.MMIO] are imported by tmp2.py but are not among the sources.
    The offsets of [pmod_const] are parameters; [request_iop] either
    fails (the Allocation error of section 7) or yields the base address
    of the I/O processor; the transport is the [writeWord]/[readWord]
    contract of section 4.1.  The mailbox is shared with the
    co-processor, which may change any cell between two accesses, so the
    word a read returns is given by the environment: [mmio_word n a] is
    what the [n]-th read of the driver sees when it reads offset [a]. *)
Class Platform : Type := {
  MAILBOX_OFFSET : Z;
  MAILBOX_PY2IOP_CMD_OFFSET : Z;
  IOP_MMIO_REGSIZE : Z;
  request_iop : Z -> string -> option Z;
  mmio_word : nat -> Z -> Z
}.

Definition PROGRAM : string := "tmp2.bin".

(** ["T\tData"] *)
Definition header : string := "T" ++ String (Ascii.ascii_of_nat 9) "Data".

(** A printed line: a literal text, or [str(x) + "\t" + str(v)]. *)
Inductive line : Type :=
| Text (s : string)
| Entry (x : Z) (v : Q).

(** What the driver does to the outside, in order. *)
Inductive event : Type :=
| IopStart
| MmioWrite (offset value : Z)
| MmioRead (offset value : Z)
| Print (l : line).

(** The attributes of a [TMP2] instance; [value] is unset until the
    first [read]. *)
Record TMP2 : Type := {
  iop : Z;
  mmio : Z * Z;
  log_ms : Z;
  value : option Z
}.

Record world : Type := {
  self : TMP2;
  nreads : nat;
  trace : list event
}.

(** ** A state and exception monad with divergence *)

Inductive outcome (A : Type) : Type :=
| Returns (a : A)
| Raises (e : exn)
| Spins.
Arguments Returns {A} a.
Arguments Raises {A} e.
Arguments Spins {A}.

Definition M (A : Type) : Type := world -> outcome A * world.

Definition ret {A} (a : A) : M A := fun w => (Returns a, w).

Definition bind {A B} (m : M A) (k : A -> M B) : M B :=
  fun w =>
    match m w with
    | (Returns a, w') => k a w'
    | (Raises e, w') => (Raises e, w')
    | (Spins, w') => (Spins, w')
    end.

Definition raise {A} (e : exn) : M A := fun w => (Raises e, w).
Definition spin {A} : M A := fun w => (Spins, w).

Declare Scope py_scope.
Delimit Scope py_scope with py.
Notation "x <- m ;; k" := (bind m (fun x => k))
  (at level 61, m at next level, right associativity) : py_scope.
Notation "m ;; k" := (bind m (fun _ => k))
  (at level 61, right associativity) : py_scope.
Local Open Scope py_scope.

Definition emit (e : event) : M unit :=
  fun w => (Returns tt,
            {| self := self w; nreads := nreads w; trace := trace w ++ [e] |}).

Definition update_self (f : TMP2 -> TMP2) : M unit :=
  fun w => (Returns tt,
            {| self := f (self w); nreads := nreads w; trace := trace w |}).

Definition get_self : M TMP2 := fun w => (Returns (self w), w).

Definition print (l : line) : M unit := emit (Print l).

(** [self.log_ms = ms] and [self.value = v] *)
Definition with_log_ms (ms : Z) (s : TMP2) : TMP2 :=
  {| iop := iop s; mmio := mmio s; log_ms := ms; value := value s |}.

Definition with_value (v : Z) (s : TMP2) : TMP2 :=
  {| iop := iop s; mmio := mmio s; log_ms := log_ms s; value := Some v |}.

Section Driver.
Context `{Platform}.

(** [self.mmio.write(offset, data)] *)
Definition mmio_write (offset data : Z) : M unit :=
  emit (MmioWrite offset data).

(** [self.mmio.read(offset)] *)
Definition mmio_read (offset : Z) : M Z :=
  fun w =>
    let v := mmio_word (nreads w) offset in
    (Returns v,
     {| self := self w; nreads := S (nreads w);
        trace := trace w ++ [MmioRead offset v] |}).

(** Attribute lookup [self.<name>] for the methods that decode a
    register: the class defines [_reg2float] and no other. *)
Definition TMP2_decoder (name : string) : option (Z -> Q) :=
  if String.eqb name "_reg2float" then Some _reg2float else None.

Definition getattr_decoder (name : string) : M (Z -> Q) :=
  match TMP2_decoder name with
  | Some f => ret f
  | None => raise (AttributeError name)
  end.

(** [TMP2(pmod_id)] *)
Definition __init__ (pmod_id : Z) : outcome world :=
  match request_iop pmod_id PROGRAM with
  | None => Raises AllocationError
  | Some base_addr =>
      Returns {| self := {| iop := base_addr;
                            mmio := (base_addr, IOP_MMIO_REGSIZE);
                            log_ms := 0;
                            value := None |};
                 nreads := 0;
                 trace := [IopStart] |}
  end.

(** The command cell. *)
Definition cmd_cell : Z := MAILBOX_OFFSET + MAILBOX_PY2IOP_CMD_OFFSET.

(** The [while ... == 3: pass] loop of [read]; [fuel] bounds the number
    of iterations, and the loop [Spins] when it is used up. *)
Fixpoint poll (fuel : nat) : M unit :=
  match fuel with
  | O => spin
  | S fuel' =>
      c <- mmio_read cmd_cell ;;
      if c =? 3 then poll fuel' else ret tt
  end.

Definition read (fuel : nat) : M Q :=
  mmio_write cmd_cell 3 ;;
  poll fuel ;;
  v <- mmio_read MAILBOX_OFFSET ;;
  update_self (with_value v) ;;
  decode <- getattr_decoder "_reg2float" ;;
  ret (decode v).

Definition set_log_ms (ms : Z) : M unit :=
  if ms <? 0
  then raise (ValueError "Log length should not be less than 0.")
  else
    update_self (with_log_ms ms) ;;
    s <- get_self ;;
    mmio_write (MAILBOX_OFFSET + 4) (log_ms s).

Definition start_log (ms : Z) : M unit :=
  set_log_ms ms ;;
  mmio_write cmd_cell 7.

Definition stop_log : M unit :=
  mmio_write cmd_cell 1.

(** [range(count)] *)
Definition range (count : Z) : list Z :=
  map Z.of_nat (seq 0 (Z.to_nat count)).

(** The body of the [for] loop of [print_log], with its local
    [current_ptr]. *)
Fixpoint log_loop (xs : list Z) (current_ptr : Z) : M unit :=
  match xs with
  | [] => ret tt
  | x :: xs' =>
      temp <- mmio_read (MAILBOX_OFFSET + (3 + x) * 4) ;;
      reg2float <- getattr_decoder "reg2float" ;;
      print (Entry x (reg2float temp)) ;;
      log_loop xs' (if current_ptr <? 999 then current_ptr + 1 else 0)
  end.

(** The window computed from the end pointer:
    [(current_ptr, end_ptr, count)]. *)
Definition log_window (end_ptr : Z) : Z * Z * Z :=
  if end_ptr >=? 1000
  then (end_ptr - 999, end_ptr - 1000, 1000)
  else (0, end_ptr, end_ptr).

Definition print_log : M unit :=
  stop_log ;;
  end_ptr <- mmio_read (MAILBOX_OFFSET + 8) ;;
  let '(current_ptr, _, count) := log_window end_ptr in
  print (Text header) ;;
  log_loop (range count) current_ptr.

(** The public operations, for statements about all of them. *)
Inductive call : Type :=
| CallRead
| CallSetLogMs (ms : Z)
| CallStartLog (ms : Z)
| CallStopLog
| CallPrintLog.

Definition ignore {A} (m : M A) : M unit := bind m (fun _ => ret tt).

Definition perform (fuel : nat) (c : call) : M unit :=
  match c with
  | CallRead => ignore (read fuel)
  | CallSetLogMs ms => set_log_ms ms
  | CallStartLog ms => start_log ms
  | CallStopLog => stop_log
  | CallPrintLog => print_log
  end.

(** The mailbox layout of the specification: log slot [i] is the word at
    [+12 + 4*i]. *)
Definition slot_offset (i : Z) : Z := MAILBOX_OFFSET + 12 + 4 * i.

(** The offsets read, in order, in a stretch of the trace. *)
Definition read_offsets (tr : list event) : list Z :=
  flat_map (fun e => match e with MmioRead a _ => [a] | _ => [] end) tr.

(** The offsets of the raw words a dump started in [w] reads: its reads
    after the first one, which is that of the end pointer. *)
Definition dump_reads (w : world) : list Z :=
  tl (read_offsets (skipn (List.length (trace w)) (trace (snd (print_log w))))).

(** The reads of the command cell made by [k] iterations of the polling
    loop when [n0] reads came before. *)
Definition poll_reads (n0 k : nat) : list event :=
  map (fun i => MmioRead cmd_cell (mmio_word (n0 + i) cmd_cell)) (seq 0 k).

(** [m] keeps a property of the instance, whatever its outcome. *)
Definition preserves (I : TMP2 -> Prop) {A} (m : M A) : Prop :=
  forall w, I (self w) -> I (self (snd (m w))).

Definition is_entry (e : event) : bool :=
  match e with Print (Entry _ _) => true | _ => false end.

End Driver.

(** The word of the specification's example: sign 0, biased exponent
    131, significand 1.5625. *)
Definition word_25 : Z := 0x41C80000.

(** A platform for examples: the offsets of the PYNQ images, slots 1 to
    4 allocatable, and a co-processor answering reads by [words]. *)
Definition bench (words : nat -> Z -> Z) : Platform :=
  {| MAILBOX_OFFSET := 0x7000;
     MAILBOX_PY2IOP_CMD_OFFSET := 0xffc;
     IOP_MMIO_REGSIZE := 0x10000;
     request_iop := fun pmod_id _ =>
       if (1 <=? pmod_id) && (pmod_id <=? 4)
       then Some (0x40000000 + 0x40000 * (pmod_id - 1)) else None;
     mmio_word := words |}.

(** A co-processor that leaves the command cell at 3 for two polls, then
    clears it, and holds the word for 25.0 everywhere else. *)
Definition slow_reader (n : nat) (a : Z) : Z :=
  if a =? 0x7ffc then (if (n <? 2)%nat then 3 else 0) else word_25.

(** A co-processor whose log end pointer reads [p]. *)
Definition logger (p : Z) (n : nat) (a : Z) : Z :=
  if a =? 0x7008 then p else word_25.

Definition fresh (s : TMP2) : world :=
  {| self := s; nreads := 0; trace := [] |}.

Definition sensor : TMP2 :=
  {| iop := 0x40000000; mmio := (0x40000000, 0x10000);
     log_ms := 0; value := None |}.

(** * Further definitions *)

(** ** The decoded value as a fraction of integers *)

(** The integer significand and the sign factor of a word. *)
Definition significand (reg : Z) : Z :=
  if exp reg =? 0 then mantissa reg else 2 ^ 23 + mantissa reg.

Definition sign_factor (reg : Z) : Z := sign reg * -2 + 1.

(** The product of line 226 as a fraction of integers. *)
Definition result_num (reg : Z) : Z :=
  sign_factor reg * significand reg * 2 ^ Z.max 0 (exp reg - 23).

Definition result_den (reg : Z) : Z := 2 ^ Z.max 0 (23 - exp reg).

(** The product of a word with the sign bit clear, scaled by 2^150: an
    integer. *)
Definition magnitude (reg : Z) : Z := significand reg * 2 ^ (exp reg + 127).

(** ** Sessions *)

Section DriverSessions.
Context `{Platform}.

(** A session: calls made one after the other on the same instance, an
    exception of one call being caught before the next. *)
Fixpoint run_calls (cs : list (nat * call)) (w : world) : world :=
  match cs with
  | [] => w
  | (fuel, c) :: cs' => run_calls cs' (snd (perform fuel c w))
  end.

(** The value last written to offset [a], if any. *)
Definition last_write (a : Z) (tr : list event) : option Z :=
  fold_left
    (fun acc e =>
       match e with
       | MmioWrite o v => if o =? a then Some v else acc
       | _ => acc
       end) tr None.

(** [log_ms] is what the driver last wrote to the log-length cell, or 0
    when it has not written it yet. *)
Definition log_length_mirrored (s : TMP2) (tr : list event) : Prop :=
  log_ms s = match last_write (MAILBOX_OFFSET + 4) tr with
             | Some v => v
             | None => 0
             end.

Definition is_write (e : event) : bool :=
  match e with MmioWrite _ _ => true | _ => false end.

(** The writes of the mailbox protocol: an opcode 1, 3 or 7 to the
    command cell, or a length that is not negative to the cell at +4. *)
Definition protocol_event (e : event) : Prop :=
  match e with
  | MmioWrite o v =>
      (o = cmd_cell /\ (v = 1 \/ v = 3 \/ v = 7)) \/
      (o = MAILBOX_OFFSET + 4 /\ 0 <= v)
  | _ => True
  end.

(** The events of every operation other than the write of the log
    length: reads, printed lines and opcodes. *)
Definition routine_event (e : event) : Prop :=
  match e with
  | MmioWrite o v => o = cmd_cell /\ (v = 1 \/ v = 3 \/ v = 7)
  | IopStart => False
  | _ => True
  end.

(** [m] keeps a property of the instance and of what it has done so
    far, whatever its outcome. *)
Definition keeps (J : TMP2 -> list event -> Prop) {A} (m : M A) : Prop :=
  forall w, J (self w) (trace w) ->
            J (self (snd (m w))) (trace (snd (m w))).

(** [start_log()]: the parameter [log_ms] defaults to 0. *)
Definition start_log_default : M unit := start_log 0.

End DriverSessions.
(** * Properties of the decoder *)

Example decode_25 : _reg2float 0x41C80000 = (250 # 10)%Q.
Proof. reflexivity. Qed.
Example decode_quarter : _reg2float 0x3E800000 = (2 # 10)%Q.
Proof. reflexivity. Qed.

Lemma mantissa_bits reg : mantissa reg = bits 22 0 reg.
Proof.
  unfold mantissa, bits. change 0x007fffff with (Z.ones 23).
  rewrite Z.land_ones by lia. now rewrite Z.div_1_r.
Qed.

Lemma exp_bits reg : exp reg = bits 30 23 reg - 127.
Proof.
  unfold exp, bits. rewrite Z.shiftr_land.
  change (Z.shiftr 0x7f800000 23) with (Z.ones 8).
  rewrite Z.land_ones by lia. now rewrite Z.shiftr_div_pow2 by lia.
Qed.

Lemma sign_bits reg : sign reg = bits 31 31 reg.
Proof.
  unfold sign, bits. rewrite Z.shiftr_land.
  change (Z.shiftr 0x80000000 31) with 1. change 0x01 with 1.
  rewrite <- Z.land_assoc. change (Z.land 1 1) with (Z.ones 1).
  rewrite Z.land_ones by lia. now rewrite Z.shiftr_div_pow2 by lia.
Qed.

Lemma sign_01 reg : sign reg = 0 \/ sign reg = 1.
Proof.
  rewrite sign_bits. unfold bits. change (2 ^ (31 - 31 + 1)) with 2.
  pose proof (Z.mod_pos_bound (reg / 2 ^ 31) 2). lia.
Qed.

(** Setting bit 31 of a 31-bit word changes the sign field only. *)
Lemma set_sign_bit b :
  0 <= b < 2 ^ 31 ->
  sign b = 0 /\ sign (Z.lor b 0x80000000) = 1 /\
  exp (Z.lor b 0x80000000) = exp b /\
  mantissa (Z.lor b 0x80000000) = mantissa b.
Proof.
  intros Hb.
  assert (Hor : Z.lor b 0x80000000 = b + 2 ^ 31).
  { change 0x80000000 with (2 ^ 31).
    assert (Hl : Z.land b (2 ^ 31) = 0).
    { apply Z.bits_inj'. intros n Hn. rewrite Z.land_spec, Z.bits_0.
      destruct (Z.eq_dec n 31) as [->|Hne].
      - destruct (Z.eq_dec b 0) as [->|Hnz]; [now rewrite Z.bits_0|].
        rewrite (Z.bits_above_log2 b 31); [reflexivity| lia |].
        apply Z.log2_lt_pow2; lia.
      - rewrite (Z.pow2_bits_false 31 n) by lia. apply andb_false_r. }
    now rewrite <- (Z.lxor_lor _ _ Hl), <- (Z.add_nocarry_lxor _ _ Hl). }
  rewrite Hor, !sign_bits, !exp_bits, !mantissa_bits. unfold bits.
  change (2 ^ (31 - 31 + 1)) with 2. change (2 ^ (30 - 23 + 1)) with 256.
  change (2 ^ (22 - 0 + 1)) with 8388608. change (2 ^ 0) with 1.
  change (2 ^ 23) with 8388608. change (2 ^ 31) with 2147483648 in *.
  repeat split; Z.to_euclidean_division_equations; lia.
Qed.

(** ** Rounding to one decimal place *)

Lemma round_half_even_spec n d :
  0 < d ->
  Z.abs (2 * n - 2 * round_half_even n d * d) <= d /\
  (Z.abs (2 * n - 2 * round_half_even n d * d) = d ->
   Z.even (round_half_even n d) = true).
Proof.
  intros Hd. unfold round_half_even.
  pose proof (Z.div_mod n d ltac:(lia)) as Hdm.
  pose proof (Z.mod_pos_bound n d Hd) as Hr.
  destruct (Z.ltb_spec (2 * (n mod d)) d);
    [|destruct (Z.ltb_spec d (2 * (n mod d)));
      [|destruct (Z.even (n / d)) eqn:Hev]].
  - split; nia.
  - split; nia.
  - split; [nia | trivial].
  - split; [nia|]. intros _.
    replace (n / d + 1) with (Z.succ (n / d)) by lia.
    rewrite Z.even_succ, <- Z.negb_even, Hev. reflexivity.
Qed.

(** The two conditions determine the rounded value. *)
Lemma nearest_even_unique n d t1 t2 :
  0 < d ->
  Z.abs (2 * n - 2 * t1 * d) <= d ->
  (Z.abs (2 * n - 2 * t1 * d) = d -> Z.even t1 = true) ->
  Z.abs (2 * n - 2 * t2 * d) <= d ->
  (Z.abs (2 * n - 2 * t2 * d) = d -> Z.even t2 = true) ->
  t1 = t2.
Proof.
  intros Hd H1 E1 H2 E2.
  assert (Hclose : t1 = t2 \/ t1 = t2 + 1 \/ t2 = t1 + 1) by nia.
  destruct Hclose as [?|[->| ->]]; trivial; exfalso.
  - assert (Z.even (t2 + 1) = true) by (apply E1; nia).
    assert (Z.even t2 = true) by (apply E2; nia).
    replace (t2 + 1) with (Z.succ t2) in * by lia.
    rewrite Z.even_succ, <- Z.negb_even in *. destruct (Z.even t2); discriminate.
  - assert (Z.even (t1 + 1) = true) by (apply E2; nia).
    assert (Z.even t1 = true) by (apply E1; nia).
    replace (t1 + 1) with (Z.succ t1) in * by lia.
    rewrite Z.even_succ, <- Z.negb_even in *. destruct (Z.even t1); discriminate.
Qed.

Lemma round_half_even_opp n d :
  0 < d -> round_half_even (- n) d = - round_half_even n d.
Proof.
  intros Hd.
  destruct (round_half_even_spec n d Hd) as [Hn En].
  destruct (round_half_even_spec (- n) d Hd) as [Ho Eo].
  apply (nearest_even_unique (- n) d); trivial.
  - lia.
  - intros Ht. rewrite Z.even_opp. apply En. lia.
Qed.



Lemma format_1f_opp x : format_1f (- x) = - format_1f x.
Proof.
  destruct x as [n d]. unfold format_1f. cbn [Qopp Qnum Qden].
  rewrite <- round_half_even_opp by lia. f_equal. lia.
Qed.

(** ** The exact product is a short dyadic number *)

Lemma exp_range reg : -127 <= exp reg <= 128.
Proof.
  rewrite exp_bits. unfold bits. change (2 ^ (30 - 23 + 1)) with 256.
  pose proof (Z.mod_pos_bound (reg / 2 ^ 23) 256). lia.
Qed.

Lemma mantissa_range reg : 0 <= mantissa reg < 2 ^ 23.
Proof.
  rewrite mantissa_bits. unfold bits. change (2 ^ (22 - 0 + 1)) with (2 ^ 23).
  apply Z.mod_pos_bound. lia.
Qed.

Lemma pow2_nonzero e : ~ (pow2 e == 0)%Q.
Proof. apply Qpower_not_0. discriminate.
Qed.

(** [man] has at most 24 significant bits and [result] is [man] scaled
    by a power of two and a sign: every product in the source is exact. *)
Lemma result_dyadic reg :
  exists m e : Z,
    Z.abs m < 2 ^ 24 /\ -150 <= e <= 105 /\
    (result reg == inject_Z m * pow2 e)%Q.
Proof.
  pose proof (exp_range reg) as He. pose proof (mantissa_range reg) as Hm.
  set (k := if exp reg =? 0 then mantissa reg else 2 ^ 23 + mantissa reg).
  exists (k * (sign reg * -2 + 1)), (exp reg - 23).
  split; [|split; [lia|]].
  - subst k. destruct (sign_01 reg) as [-> | ->], (exp reg =? 0);
      change (2 ^ 23) with 8388608 in *; change (2 ^ 24) with 16777216; lia.
  - assert (Hp : (pow2 (exp reg - 23) == pow2 (exp reg) / pow2 23)%Q)
      by (unfold pow2; apply Qpower_minus; discriminate).
    unfold result, man. subst k. rewrite Hp, inject_Z_mult.
    pose proof (pow2_nonzero 23) as H23.
    destruct (exp reg =? 0).
    + field. exact H23.
    + rewrite (inject_Z_plus (2 ^ 23)).
      assert (H1 : (inject_Z (2 ^ 23) == pow2 23)%Q) by reflexivity.
      rewrite H1. field. exact H23.
Qed.

Example binary64_quarter :
  Binary64.result 0x3E800000 = S754_finite false (2 ^ 52) (-54).
Proof. vm_compute. reflexivity. Qed.

(** * The binary64 evaluation is exact *)

(** ** Rounding a number that fits *)

Lemma digits2_pos_size p : digits2_pos p = Pos.size p.
Proof. induction p; cbn; now rewrite ?IHp. Qed.

Lemma digits2_pos_bounds p :
  2 ^ (Zpos (digits2_pos p) - 1) <= Zpos p < 2 ^ Zpos (digits2_pos p).
Proof.
  induction p as [p IH | p IH |]; cbn [digits2_pos].
  - rewrite Pos2Z.inj_succ.
    replace (Z.succ (Zpos (digits2_pos p)) - 1) with (Z.succ (Zpos (digits2_pos p) - 1)) by lia.
    rewrite !Z.pow_succ_r by lia. lia.
  - rewrite Pos2Z.inj_succ.
    replace (Z.succ (Zpos (digits2_pos p)) - 1) with (Z.succ (Zpos (digits2_pos p) - 1)) by lia.
    rewrite !Z.pow_succ_r by lia. lia.
  - cbn. lia.
Qed.

Lemma digits2_pos_unique p k :
  2 ^ (k - 1) <= Zpos p < 2 ^ k -> Zpos (digits2_pos p) = k.
Proof.
  intros [Hlo Hhi]. pose proof (digits2_pos_bounds p) as [Dlo Dhi].
  assert (0 < k).
  { destruct (Z_lt_le_dec 0 k); trivial.
    assert (2 ^ k <= 2 ^ 0) by (destruct (Z_lt_le_dec k 0); [rewrite Z.pow_neg_r by lia; cbn; lia| apply Z.pow_le_mono_r; lia]).
    cbn in *. lia. }
  destruct (Z.lt_trichotomy (Zpos (digits2_pos p)) k) as [Hlt | [Heq | Hgt]]; trivial; exfalso.
  - assert (2 ^ Zpos (digits2_pos p) <= 2 ^ (k - 1)) by (apply Z.pow_le_mono_r; lia). lia.
  - assert (2 ^ k <= 2 ^ (Zpos (digits2_pos p) - 1)) by (apply Z.pow_le_mono_r; lia). lia.
Qed.

Lemma iter_pos_nat {A} (f : A -> A) n : forall x,
  iter_pos f n x = Nat.iter (Pos.to_nat n) f x.
Proof.
  induction n as [n IH | n IH |]; intros x; cbn [iter_pos].
  - rewrite !IH, Pos2Nat.inj_xI.
    replace (S (2 * Pos.to_nat n)) with (Pos.to_nat n + (Pos.to_nat n + 1))%nat by lia.
    now rewrite !Nat.iter_add.
  - rewrite !IH, Pos2Nat.inj_xO.
    replace (2 * Pos.to_nat n)%nat with (Pos.to_nat n + Pos.to_nat n)%nat by lia.
    now rewrite Nat.iter_add.
  - reflexivity.
Qed.

Lemma shr_1_exact k : forall p,
  Nat.iter k shr_1 {| shr_m := Zpos p * 2 ^ Z.of_nat k; shr_r := false; shr_s := false |}
  = {| shr_m := Zpos p; shr_r := false; shr_s := false |}.
Proof.
  induction k as [|k IH]; intros p.
  - cbn. now rewrite Pos.mul_1_r.
  - rewrite Nat.iter_succ_r, Nat2Z.inj_succ, Z.pow_succ_r by lia.
    replace (Zpos p * (2 * 2 ^ Z.of_nat k)) with (Zpos (xO p) * 2 ^ Z.of_nat k) by lia.
    assert (Hpos : exists q, Zpos (xO p) * 2 ^ Z.of_nat k = Zpos (xO q) /\ Zpos q = Zpos p * 2 ^ Z.of_nat k).
    { assert (0 < 2 ^ Z.of_nat k) by (apply Z.pow_pos_nonneg; lia).
      destruct (Zpos p * 2 ^ Z.of_nat k) as [|q|q] eqn:E; try lia.
      exists q. split; lia. }
    destruct Hpos as (q & Hq & Hq'). rewrite Hq. cbn [shr_1 orb].
    rewrite Hq'. apply IH.
Qed.

Lemma digits2_pos_shift c k m :
  0 <= k -> Zpos m = Zpos c * 2 ^ k ->
  Zpos (digits2_pos m) = Zpos (digits2_pos c) + k.
Proof.
  intros Hk Hm. apply digits2_pos_unique.
  pose proof (digits2_pos_bounds c) as [Dlo Dhi].
  replace (Zpos (digits2_pos c) + k - 1) with (Zpos (digits2_pos c) - 1 + k) by lia.
  rewrite !Z.pow_add_r, Hm by lia.
  assert (0 < 2 ^ k) by (apply Z.pow_pos_nonneg; lia). nia.
Qed.

Lemma shr_nonpos mrs e n : n <= 0 -> shr mrs e n = (mrs, e).
Proof. destruct n; trivial; lia. Qed.

Lemma shr_exact q e n :
  0 < n ->
  shr {| shr_m := Zpos q * 2 ^ n; shr_r := false; shr_s := false |} e n
  = ({| shr_m := Zpos q; shr_r := false; shr_s := false |}, e + n).
Proof.
  intros Hn. destruct n as [|p|p]; try lia. unfold shr.
  rewrite iter_pos_nat. rewrite <- (positive_nat_Z p) at 1.
  now rewrite shr_1_exact.
Qed.

Lemma bra_exact s m e c k :
  0 <= k -> Zpos m = Zpos c * 2 ^ k -> Zpos c < 2 ^ 53 ->
  -1074 <= e -> e + Zpos (digits2_pos m) <= 1024 ->
  (Zpos (digits2_pos m) <= 53 -> e <= 971) ->
  exists m' k',
    bra s (Zpos m) e loc_Exact = S754_finite s m' (e + (k - k')) /\
    0 <= k' <= k /\ Zpos m' = Zpos c * 2 ^ k' /\ Zpos m' < 2 ^ 53.
Proof.
  intros Hk Hm Hc He Hhi Hsmall.
  pose proof (digits2_pos_shift c k m Hk Hm) as Hd.
  pose proof (digits2_pos_bounds c) as [Dlo Dhi].
  assert (Hdc : Zpos (digits2_pos c) <= 53).
  { destruct (Z_lt_le_dec 53 (Zpos (digits2_pos c))) as [Hgt|]; [|lia].
    assert (2 ^ 53 <= 2 ^ (Zpos (digits2_pos c) - 1)) by (apply Z.pow_le_mono_r; lia).
    lia. }
  unfold bra, binary_round_aux, shr_fexp, fexp, emin, Zdigits2.
  cbn [shr_record_of_loc].
  change (3 - 1024 - 53) with (-1074).
  set (d := Zpos (digits2_pos m)) in *.
  destruct (Z_le_gt_dec d 53) as [Hle | Hgt].
  - rewrite shr_nonpos by lia. cbn [shr_m loc_of_shr_record round_nearest_even].
    unfold Zdigits2. fold d. rewrite shr_nonpos by lia. cbn [shr_m].
    destruct (Z.leb_spec e (1024 - 53)); [|lia].
    exists m, k. split; [f_equal; lia|]. split; [lia|]. split; [exact Hm|].
    pose proof (digits2_pos_bounds m) as [_ Mhi]. fold d in Mhi.
    assert (2 ^ d <= 2 ^ 53) by (apply Z.pow_le_mono_r; lia). lia.
  - set (n := d - 53).
    replace (Z.max (d + e - 53) (-1074) - e) with n by lia.
    assert (Hq : exists q, Zpos q = Zpos c * 2 ^ (k - n)).
    { assert (0 < Zpos c * 2 ^ (k - n)) by (apply Z.mul_pos_pos; [lia | apply Z.pow_pos_nonneg; lia]).
      destruct (Zpos c * 2 ^ (k - n)) as [|q|q] eqn:E; try lia. now exists q. }
    destruct Hq as [q Hq].
    assert (Hmq : Zpos m = Zpos q * 2 ^ n).
    { rewrite Hm, Hq, <- Z.mul_assoc, <- Z.pow_add_r by lia. do 2 f_equal. lia. }
    rewrite Hmq, shr_exact by lia.
    cbn [shr_m loc_of_shr_record round_nearest_even].
    assert (Hdq : Zpos (digits2_pos q) = 53).
    { rewrite (digits2_pos_shift c (k - n) q) by (trivial; lia). lia. }
    unfold Zdigits2. rewrite Hdq, shr_nonpos by lia. cbn [shr_m].
    destruct (Z.leb_spec (e + n) (1024 - 53)); [|lia].
    exists q, (k - n). split; [f_equal; lia|]. split; [lia|]. split; [exact Hq|].
    pose proof (digits2_pos_bounds q) as [_ Qhi]. now rewrite Hdq in Qhi.
Qed.

Lemma scaled_shift m e k :
  0 <= k -> - bias <= e -> scaled (m * 2 ^ k) e = scaled m (e + k).
Proof.
  intros Hk He. unfold scaled.
  replace (e + k + bias) with (k + (e + bias)) by lia.
  rewrite (Z.pow_add_r 2 k (e + bias)) by lia. ring.
Qed.

Lemma scaled_le_cancel m e c v :
  - bias <= e <= v -> scaled m e = scaled c v -> m = c * 2 ^ (v - e).
Proof.
  intros He Heq. unfold scaled in Heq.
  replace (v + bias) with (v - e + (e + bias)) in Heq by lia.
  rewrite (Z.pow_add_r 2 (v - e) (e + bias)) in Heq by lia.
  assert (0 < 2 ^ (e + bias)) by (apply Z.pow_pos_nonneg; lia).
  nia.
Qed.

Lemma pow2_lt_inv a b : 0 <= b -> 2 ^ a < 2 ^ b -> a < b.
Proof.
  intros Hb Hlt. destruct (Z_lt_le_dec a b); trivial.
  assert (2 ^ b <= 2 ^ a) by (apply Z.pow_le_mono_r; lia). lia.
Qed.

Lemma digits2_pos_le m j : 0 <= j -> Zpos m < 2 ^ j -> Zpos (digits2_pos m) <= j.
Proof.
  intros Hj Hm. pose proof (digits2_pos_bounds m) as [Dlo _].
  assert (Zpos (digits2_pos m) - 1 < j) by (apply pow2_lt_inv; lia). lia.
Qed.

Lemma bra_value s m e c v :
  0 < c < 2 ^ 53 -> -1000 <= v <= 900 -> -1074 <= e ->
  scaled (Zpos m) e = scaled c v ->
  repr (bra s (Zpos m) e loc_Exact) s c v.
Proof.
  intros Hc Hv He Heq. unfold bias in *.
  destruct (Z_le_gt_dec e v) as [Hev | Hev].
  - pose proof (scaled_le_cancel (Zpos m) e c v ltac:(unfold bias; lia) Heq) as Hm.
    destruct c as [|cp|cp]; try lia.
    assert (Hdm : Zpos (digits2_pos m) <= 53 + (v - e)).
    { rewrite (digits2_pos_shift cp (v - e) m) by (trivial; lia).
      pose proof (digits2_pos_le cp 53 ltac:(lia) ltac:(lia)). lia. }
    destruct (bra_exact s m e cp (v - e)) as (m' & k' & Hbra & Hk' & Hm' & Hlt);
      try lia.
    exists m', (e + (v - e - k')). split; [exact Hbra|]. split; [exact Hlt|].
    split; [lia|]. rewrite Hm', scaled_shift by (unfold bias; lia).
    rewrite <- Heq, Hm, scaled_shift by (unfold bias; lia). f_equal. lia.
  - symmetry in Heq.
    pose proof (scaled_le_cancel c v (Zpos m) e ltac:(unfold bias; lia) Heq) as Hcm.
    assert (0 < 2 ^ (e - v)) by (apply Z.pow_pos_nonneg; lia).
    assert (Hm53 : Zpos m < 2 ^ 53) by nia.
    assert (He53 : e - v < 53).
    { apply pow2_lt_inv; [lia|]. nia. }
    pose proof (digits2_pos_le m 53 ltac:(lia) Hm53).
    destruct (bra_exact s m e m 0) as (m' & k' & Hbra & Hk' & Hm' & Hlt);
      try lia.
    exists m', (e + (0 - k')). split; [exact Hbra|]. split; [exact Hlt|].
    split; [lia|]. assert (k' = 0) by lia. subst k'.
    rewrite Hm'. change (2 ^ 0) with 1. rewrite Z.mul_1_r, Heq. f_equal. lia.
Qed.

Lemma scaled_exp_bounds m e c v :
  0 < m < 2 ^ 53 -> 0 < c < 2 ^ 53 -> - bias <= e -> - bias <= v ->
  scaled m e = scaled c v -> v - 53 < e < v + 53.
Proof.
  intros Hm Hc He Hv Heq. unfold scaled in Heq.
  assert (0 < 2 ^ (e + bias)) by (apply Z.pow_pos_nonneg; lia).
  assert (0 < 2 ^ (v + bias)) by (apply Z.pow_pos_nonneg; lia).
  split.
  - assert (2 ^ (v + bias) < 2 ^ (53 + (e + bias))).
    { rewrite (Z.pow_add_r 2 53 (e + bias)) by lia. nia. }
    assert (v + bias < 53 + (e + bias)) by (apply pow2_lt_inv; lia). lia.
  - assert (2 ^ (e + bias) < 2 ^ (53 + (v + bias))).
    { rewrite (Z.pow_add_r 2 53 (v + bias)) by lia. nia. }
    assert (e + bias < 53 + (v + bias)) by (apply pow2_lt_inv; lia). lia.
Qed.

Lemma scaled_mul m1 e1 m2 e2 :
  - bias <= e1 + e2 -> 0 <= e1 + bias -> 0 <= e2 + bias ->
  scaled m1 e1 * scaled m2 e2 = scaled (m1 * m2) (e1 + e2) * 2 ^ bias.
Proof.
  intros H12 H1 H2. unfold scaled.
  assert (E : 2 ^ (e1 + bias) * 2 ^ (e2 + bias) = 2 ^ (e1 + e2 + bias) * 2 ^ bias).
  { rewrite <- !Z.pow_add_r by (unfold bias in *; lia). f_equal. lia. }
  transitivity (m1 * m2 * (2 ^ (e1 + bias) * 2 ^ (e2 + bias))); [ring|].
  rewrite E. ring.
Qed.

Lemma mul_repr x sx cx vx y sy cy vy :
  repr x sx cx vx -> repr y sy cy vy ->
  0 < cx -> 0 < cy -> cx * cy < 2 ^ 53 ->
  -400 <= vx <= 400 -> -400 <= vy <= 400 ->
  repr (b64_mul x y) (xorb sx sy) (cx * cy) (vx + vy).
Proof.
  intros (mx & ex & -> & Hmx & Hex & Hx) (my & ey & -> & Hmy & Hey & Hy)
    Hcx Hcy Hc Hvx Hvy.
  assert (Hcx53 : cx < 2 ^ 53) by nia.
  assert (Hcy53 : cy < 2 ^ 53) by nia.
  pose proof (scaled_exp_bounds (Zpos mx) ex cx vx ltac:(lia) ltac:(lia)
                ltac:(unfold bias; lia) ltac:(unfold bias; lia) Hx) as Bx.
  pose proof (scaled_exp_bounds (Zpos my) ey cy vy ltac:(lia) ltac:(lia)
                ltac:(unfold bias; lia) ltac:(unfold bias; lia) Hy) as By.
  unfold b64_mul, SFmul. fold bra.
  apply bra_value; try lia.
  rewrite Pos2Z.inj_mul.
  assert (0 < 2 ^ bias) by (apply Z.pow_pos_nonneg; unfold bias; lia).
  apply (Z.mul_reg_r _ _ (2 ^ bias)); [lia|].
  rewrite <- !scaled_mul by (unfold bias; lia). now rewrite Hx, Hy.
Qed.

Lemma pos_iter_xO m d : Zpos (Pos.iter xO m d) = Zpos m * 2 ^ Zpos d.
Proof.
  revert m. induction d as [|d IH] using Pos.peano_ind; intros m.
  - cbn. lia.
  - rewrite Pos.iter_succ, Pos2Z.inj_succ, Z.pow_succ_r by lia.
    change (Zpos (Pos.iter xO m d)~0) with (2 * Zpos (Pos.iter xO m d)).
    rewrite IH. ring.
Qed.

Lemma shl_align_value m e e' :
  - bias <= e' ->
  exists mz ez,
    shl_align m e e' = (mz, ez) /\ ez = Z.min e e' /\
    scaled (Zpos mz) ez = scaled (Zpos m) e.
Proof.
  intros He'. unfold shl_align. destruct (e' - e) as [|d|d] eqn:Hd.
  - exists m, e. repeat split. lia.
  - exists m, e. repeat split. lia.
  - eexists _, e'. split; [reflexivity|]. split; [lia|].
    rewrite pos_iter_xO, scaled_shift by lia. f_equal. lia.
Qed.

Lemma binary_round_value s m e c v :
  0 < c < 2 ^ 53 -> -1000 <= v <= 900 -> -1074 <= e ->
  scaled (Zpos m) e = scaled c v ->
  repr (b64_round s m e) s c v.
Proof.
  intros Hc Hv He Heq. unfold b64_round, binary_round.
  destruct (shl_align_value m e (fexp 53 1024 (Zpos (digits2_pos m) + e)))
    as (mz & ez & -> & Hez & Hval).
  { unfold fexp, emin, bias. lia. }
  fold bra. apply bra_value; trivial.
  - unfold fexp, emin in Hez. lia.
  - now rewrite Hval.
Qed.

Lemma scaled_exp_shift m e c v t :
  - bias <= e -> - bias <= v -> - bias <= e + t -> - bias <= v + t ->
  scaled m e = scaled c v -> scaled m (e + t) = scaled c (v + t).
Proof.
  intros He Hv Het Hvt Heq. unfold scaled in *.
  destruct (Z_le_gt_dec 0 t) as [Ht | Ht].
  - replace (e + t + bias) with (t + (e + bias)) by lia.
    replace (v + t + bias) with (t + (v + bias)) by lia.
    rewrite (Z.pow_add_r 2 t (e + bias)), (Z.pow_add_r 2 t (v + bias)) by lia.
    nia.
  - replace (e + bias) with (- t + (e + t + bias)) in Heq by lia.
    replace (v + bias) with (- t + (v + t + bias)) in Heq by lia.
    rewrite (Z.pow_add_r 2 (- t) (e + t + bias)),
            (Z.pow_add_r 2 (- t) (v + t + bias)) in Heq by lia.
    assert (0 < 2 ^ (- t)) by (apply Z.pow_pos_nonneg; lia).
    nia.
Qed.

Lemma of_int_pos n c v :
  0 < n -> 0 < c < 2 ^ 53 -> -1000 <= v <= 900 ->
  scaled n 0 = scaled c v ->
  repr (Binary64.of_int n) false c v.
Proof.
  intros Hn Hc Hv Heq. destruct n as [|p|p]; try lia.
  unfold Binary64.of_int, binary_normalize. fold b64_round.
  apply binary_round_value; trivial. lia.
Qed.

Lemma of_int_1 : repr (Binary64.of_int 1) false 1 0.
Proof. apply of_int_pos; try reflexivity; lia. Qed.

Lemma of_int_m1 : repr (Binary64.of_int (-1)) true 1 0.
Proof.
  unfold Binary64.of_int, binary_normalize. fold b64_round.
  apply binary_round_value; try reflexivity; lia.
Qed.

Lemma of_int_pow2 e : 0 <= e <= 900 -> repr (Binary64.of_int (2 ^ e)) false 1 e.
Proof.
  intros He. apply of_int_pos; try lia.
  rewrite <- (Z.mul_1_l (2 ^ e)), scaled_shift by (unfold bias; lia).
  f_equal.
Qed.

Lemma ldexp_repr x s c v e :
  repr x s c v -> 0 < c < 2 ^ 53 -> -900 <= v <= 900 -> -900 <= v + e <= 900 ->
  repr (b64_ldexp x e) s c (v + e).
Proof.
  intros (m & ex & -> & Hm & Hex & Hx) Hc Hv Hve.
  pose proof (scaled_exp_bounds (Zpos m) ex c v ltac:(lia) ltac:(lia)
                ltac:(unfold bias; lia) ltac:(unfold bias; lia) Hx) as Bx.
  unfold b64_ldexp, SFldexp. fold b64_round.
  apply binary_round_value; try lia.
  apply scaled_exp_shift; trivial; unfold bias; lia.
Qed.

Lemma pow_2_repr e : -900 <= e <= 900 -> repr (Binary64.pow_2 e) false 1 e.
Proof.
  intros He. unfold Binary64.pow_2. destruct (Z.leb_spec 0 e).
  - apply of_int_pow2. lia.
  - change e with (0 + e) at 2. apply ldexp_repr; try lia. apply of_int_1.
Qed.

Lemma add_repr x cx vx y cy vy c v :
  repr x false cx vx -> repr y false cy vy ->
  0 < cx < 2 ^ 53 -> 0 < cy < 2 ^ 53 ->
  -900 <= vx <= 900 -> -900 <= vy <= 900 ->
  0 < c < 2 ^ 53 -> -900 <= v <= 900 ->
  scaled cx vx + scaled cy vy = scaled c v ->
  repr (Binary64.add x y) false c v.
Proof.
  intros (mx & ex & -> & Hmx & Hex & Hx) (my & ey & -> & Hmy & Hey & Hy)
    Hcx Hcy Hvx Hvy Hc Hv Hsum.
  unfold Binary64.add, SFadd, cond_Zopp.
  destruct (shl_align_value mx ex (Z.min ex ey)) as (ax & ez1 & -> & Hez1 & Hax).
  { unfold bias. lia. }
  destruct (shl_align_value my ey (Z.min ex ey)) as (ay & ez2 & -> & Hez2 & Hay).
  { unfold bias. lia. }
  cbn [fst].
  replace ez1 with (Z.min ex ey) in Hax by lia.
  replace ez2 with (Z.min ex ey) in Hay by lia.
  change (Zpos ax + Zpos ay) with (Zpos (ax + ay)).
  unfold binary_normalize. fold b64_round.
  apply binary_round_value; try lia.
  rewrite <- Hsum, <- Hx, <- Hy, <- Hax, <- Hay, Pos2Z.inj_add.
  unfold scaled. ring.
Qed.

Lemma div_eucl_exact a b : 0 < b -> Z.div_eucl (a * b) b = (a, 0).
Proof.
  intros Hb. pose proof (Z_div_mult_full a b ltac:(lia)) as Hq.
  pose proof (Z_mod_mult a b) as Hr.
  unfold Z.div, Z.modulo in Hq, Hr.
  destruct (Z.div_eucl (a * b) b) as [q r]. now subst.
Qed.

Lemma digits_above m e c v :
  0 < c -> - bias <= e -> - bias <= v ->
  scaled (Zpos m) e = scaled c v -> v < Zpos (digits2_pos m) + e.
Proof.
  intros Hc He Hv Heq. pose proof (digits2_pos_bounds m) as [_ Mhi].
  set (d := Zpos (digits2_pos m)) in *. unfold scaled in Heq.
  assert (0 < 2 ^ (e + bias)) by (apply Z.pow_pos_nonneg; lia).
  assert (0 < 2 ^ (v + bias)) by (apply Z.pow_pos_nonneg; lia).
  assert (2 ^ (v + bias) < 2 ^ (d + (e + bias))).
  { rewrite (Z.pow_add_r 2 d (e + bias)) by lia. nia. }
  assert (v + bias < d + (e + bias)) by (apply pow2_lt_inv; lia). lia.
Qed.

Lemma div_pow2_repr x sx cx vx y sy vy :
  repr x sx cx vx -> repr y sy 1 vy ->
  0 < cx < 2 ^ 53 -> -400 <= vx <= 400 -> -400 <= vy <= 400 ->
  repr (Binary64.div x y) (xorb sx sy) cx (vx - vy).
Proof.
  intros (mx & ex & -> & Hmx & Hex & Hx) (my & ey & -> & Hmy & Hey & Hy)
    Hcx Hvx Hvy.
  pose proof (scaled_exp_bounds (Zpos mx) ex cx vx ltac:(lia) ltac:(lia)
                ltac:(unfold bias; lia) ltac:(unfold bias; lia) Hx) as Bx.
  pose proof (scaled_exp_bounds (Zpos my) ey 1 vy ltac:(lia) ltac:(lia)
                ltac:(unfold bias; lia) ltac:(unfold bias; lia) Hy) as By.
  assert (Hle : ey <= vy).
  { destruct (Z_le_gt_dec ey vy) as [|Hgt]; trivial. symmetry in Hy.
    pose proof (scaled_le_cancel 1 vy (Zpos my) ey ltac:(unfold bias; lia) Hy) as H1.
    assert (2 ^ 1 <= 2 ^ (ey - vy)) by (apply Z.pow_le_mono_r; lia).
    change (2 ^ 1) with 2 in *. nia. }
  pose proof (scaled_le_cancel (Zpos my) ey 1 vy ltac:(unfold bias; lia) Hy) as Hmy2.
  set (ky := vy - ey) in *.
  assert (Hd2 : Zpos (digits2_pos my) = 1 + ky).
  { rewrite (digits2_pos_shift 1 ky my); trivial; lia. }
  pose proof (digits2_pos_le mx 53 ltac:(lia) Hmx) as Hd1.
  pose proof (digits_above mx ex cx vx ltac:(lia) ltac:(unfold bias; lia)
                ltac:(unfold bias; lia) Hx) as Hd1'.
  unfold Binary64.div, SFdiv, SFdiv_core_binary, Zdigits2, fexp, emin,
    Binary64.prec, Binary64.emax.
  cbv zeta. rewrite Hd2. set (d1 := Zpos (digits2_pos mx)) in *.
  set (f := d1 + ex - (1 + ky + ey) - 53).
  replace (Z.min (Z.max f (3 - 1024 - 53)) (ex - ey)) with f by lia.
  assert (Hs : exists sp, ex - ey - f = Zpos sp /\ Zpos sp = ky + 54 - d1).
  { destruct (ex - ey - f) as [|sp|sp] eqn:E; try lia. exists sp. split; lia. }
  destruct Hs as (sp & -> & Hsp).
  rewrite Z.shiftl_mul_pow2 by lia.
  assert (Hdiv : Zpos mx * 2 ^ Zpos sp = Zpos mx * 2 ^ (Zpos sp - ky) * Zpos my).
  { rewrite Hmy2, Z.mul_1_l, <- Z.mul_assoc, <- Z.pow_add_r by lia.
    do 2 f_equal. lia. }
  rewrite Hdiv, div_eucl_exact by lia.
  assert (Hloc : new_location (Zpos my) 0 = loc_Exact).
  { unfold new_location, new_location_even, new_location_odd.
    now destruct (Z.even (Zpos my)). }
  rewrite Hloc.
  assert (Hq : exists qp, Zpos mx * 2 ^ (Zpos sp - ky) = Zpos qp).
  { assert (0 < 2 ^ (Zpos sp - ky)) by (apply Z.pow_pos_nonneg; lia).
    destruct (Zpos mx * 2 ^ (Zpos sp - ky)) as [|qp|qp] eqn:E; try lia.
    now exists qp. }
  destruct Hq as (qp & Hq). rewrite Hq. fold bra.
  apply bra_value; try lia.
  rewrite <- Hq, scaled_shift by (unfold bias; lia).
  replace (f + (Zpos sp - ky)) with (ex + - vy) by lia.
  replace (vx - vy) with (vx + - vy) by lia.
  apply scaled_exp_shift; trivial; unfold bias; lia.
Qed.

Lemma repr_rescale x s c v c' v' :
  repr x s c v -> scaled c v = scaled c' v' -> repr x s c' v'.
Proof.
  intros (m & e & -> & Hm & He & Hx) Heq. exists m, e.
  repeat split; trivial. now rewrite Hx.
Qed.

Lemma scaled_add a b e : scaled (a + b) e = scaled a e + scaled b e.
Proof. unfold scaled. ring. Qed.

Lemma mantissa_div_repr m :
  0 < m < 2 ^ 23 ->
  repr (Binary64.div (Binary64.of_int m) (Binary64.of_int (2 ^ 23))) false m (-23).
Proof.
  intros Hm.
  change false with (xorb false false). change (-23) with (0 - 23).
  apply div_pow2_repr; try lia.
  - apply of_int_pos; lia.
  - apply of_int_pow2. lia.
Qed.

Lemma man_repr reg :
  let m := mantissa reg in
  if exp reg =? 0
  then (m = 0 /\ Binary64.man reg = S754_zero false) \/
       (0 < m /\ repr (Binary64.man reg) false m (-23))
  else repr (Binary64.man reg) false (2 ^ 23 + m) (-23).
Proof.
  cbv zeta. pose proof (mantissa_range reg) as Hm. unfold Binary64.man.
  destruct (exp reg =? 0).
  - destruct (Z.eq_dec (mantissa reg) 0) as [-> | Hnz].
    + left. split; [reflexivity|]. now vm_compute.
    + right. split; [lia|]. apply mantissa_div_repr. lia.
  - destruct (Z.eq_dec (mantissa reg) 0) as [-> | Hnz].
    + apply (repr_rescale _ false 1 0); [|reflexivity].
      replace (Binary64.add _ _) with (Binary64.of_int 1) by now vm_compute.
      apply of_int_1.
    + apply (add_repr _ 1 0 _ (mantissa reg) (-23)); try lia.
      * apply of_int_1.
      * apply mantissa_div_repr. lia.
      * rewrite scaled_add. f_equal.
Qed.

Lemma inject_Z_pow2 n : 0 <= n -> (inject_Z (2 ^ n) == pow2 n)%Q.
Proof. intros Hn. unfold pow2. now rewrite Zpower_Qpower. Qed.

Lemma pow2_add a b : (pow2 (a + b) == pow2 a * pow2 b)%Q.
Proof. unfold pow2. apply Qpower_plus. discriminate. Qed.

Lemma scaled_Q m e :
  - bias <= e -> (inject_Z (scaled m e) == inject_Z m * pow2 e * pow2 bias)%Q.
Proof.
  intros He. unfold scaled.
  rewrite inject_Z_mult, inject_Z_pow2, pow2_add by lia. ring.
Qed.

Lemma scaled_eq_Q m e c v :
  - bias <= e -> - bias <= v -> scaled m e = scaled c v ->
  (inject_Z m * pow2 e == inject_Z c * pow2 v)%Q.
Proof.
  intros He Hv Heq.
  apply (Qmult_inj_r _ _ (pow2 bias) (pow2_nonzero bias)).
  now rewrite <- !scaled_Q, Heq by trivial.
Qed.

Lemma repr_to_Q x s c v :
  repr x s c v -> - bias <= v ->
  exists q, Binary64.to_Q x = Some q /\
            (q == inject_Z (cond_Zopp s c) * pow2 v)%Q.
Proof.
  intros (m & e & -> & Hm & He & Hx) Hv. eexists. split; [reflexivity|].
  pose proof (scaled_eq_Q (Zpos m) e c v ltac:(unfold bias; lia) Hv Hx) as HQ.
  destruct s; cbn [cond_Zopp].
  - change (Z.neg m) with (- Zpos m). rewrite !inject_Z_opp.
    setoid_replace (- inject_Z (Zpos m) * pow2 e)%Q
      with (- (inject_Z (Zpos m) * pow2 e))%Q by ring.
    rewrite HQ. ring.
  - exact HQ.
Qed.

Lemma sign_factor_repr reg :
  repr (Binary64.of_int (sign reg * -2 + 1)) (sign reg =? 1) 1 0.
Proof.
  destruct (sign_01 reg) as [-> | ->]; cbn [Z.eqb Z.mul Z.add Pos.mul Z.opp Z.pos_sub].
  - apply of_int_1.
  - apply of_int_m1.
Qed.

(** The product of line 226, computed in binary64, is finite and equals
    the product computed in [Q]. *)
Theorem binary64_exact reg :
  exists q, Binary64.to_Q (Binary64.result reg) = Some q /\
            (q == Decode.result reg)%Q.
Proof.
  pose proof (exp_range reg) as He. pose proof (mantissa_range reg) as Hm.
  pose proof (pow_2_repr (exp reg) ltac:(lia)) as HP.
  pose proof (sign_factor_repr reg) as HS.
  pose proof (man_repr reg) as HM. cbv zeta in HM.
  assert (H23 : (pow2 (exp reg - 23) == pow2 (exp reg) / pow2 23)%Q)
    by (unfold pow2; apply Qpower_minus; discriminate).
  pose proof (pow2_nonzero 23) as Hnz.
  assert (Hsg : inject_Z (sign reg * -2 + 1) = inject_Z (cond_Zopp (sign reg =? 1) 1)).
  { destruct (sign_01 reg) as [-> | ->]; reflexivity. }
  unfold Binary64.result, Decode.result, Decode.man.
  destruct (exp reg =? 0).
  - destruct HM as [[Hm0 ->] | [Hmpos HM]].
    + destruct HP as (mp & ep & -> & _). destruct HS as (ms & es & -> & _).
      eexists. split; [reflexivity|]. rewrite Hm0. cbn [inject_Z].
      unfold Qdiv. ring.
    + pose proof (mul_repr _ _ _ _ _ _ _ _ HP HM) as H1.
      specialize (H1 ltac:(lia) ltac:(lia) ltac:(lia) ltac:(lia) ltac:(lia)).
      pose proof (mul_repr _ _ _ _ _ _ _ _ H1 HS) as H2.
      specialize (H2 ltac:(lia) ltac:(lia) ltac:(lia) ltac:(lia) ltac:(lia)).
      destruct (repr_to_Q _ _ _ _ H2 ltac:(unfold bias; lia)) as (q & Hq & Hval).
      exists q. split; [exact Hq|]. rewrite Hval, Hsg.
      replace (exp reg + -23 + 0) with (exp reg - 23) by lia. rewrite H23.
      destruct (sign reg =? 1); cbn [xorb cond_Zopp];
        rewrite ?Z.mul_1_l, ?Z.mul_1_r, ?inject_Z_opp; field; exact Hnz.
  - pose proof (mul_repr _ _ _ _ _ _ _ _ HP HM) as H1.
    specialize (H1 ltac:(lia) ltac:(lia) ltac:(lia) ltac:(lia) ltac:(lia)).
    pose proof (mul_repr _ _ _ _ _ _ _ _ H1 HS) as H2.
    specialize (H2 ltac:(lia) ltac:(lia) ltac:(lia) ltac:(lia) ltac:(lia)).
    destruct (repr_to_Q _ _ _ _ H2 ltac:(unfold bias; lia)) as (q & Hq & Hval).
    exists q. split; [exact Hq|]. rewrite Hval, Hsg.
    replace (exp reg + -23 + 0) with (exp reg - 23) by lia. rewrite H23.
    assert (H1' : (inject_Z (2 ^ 23) == pow2 23)%Q) by reflexivity.
    destruct (sign reg =? 1); cbn [xorb cond_Zopp];
      rewrite ?Z.mul_1_l, ?Z.mul_1_r, ?inject_Z_opp, (inject_Z_plus (2 ^ 23)), H1';
      field; exact Hnz.
Qed.

(** ** The decoder in binary64 and in [Q] agree *)

Lemma format_1f_Qeq (q q' : Q) : (q == q')%Q -> format_1f q = format_1f q'.
Proof.
  destruct q as [n d], q' as [n' d']. unfold Qeq, format_1f. cbn [Qnum Qden].
  intros Heq.
  destruct (round_half_even_spec (n * 10) (Zpos d) ltac:(lia)) as [H1 E1].
  destruct (round_half_even_spec (n' * 10) (Zpos d') ltac:(lia)) as [H2 E2].
  apply (nearest_even_unique (n * 10 * Zpos d') (Zpos d * Zpos d')); try nia.
  - intros Ht. apply E1. nia.
  - intros Ht. apply E2. nia.
Qed.

(** X1: the decoder whose product is computed with binary64 operations
    returns what the decoder over [Q] returns, for every word: the
    floating-point product is finite and exact. *)
Theorem binary64_reg2float reg :
  Binary64._reg2float reg = Some (_reg2float reg).
Proof.
  unfold Binary64._reg2float, _reg2float. destruct (reg =? 0); [reflexivity|].
  destruct (binary64_exact reg) as (q & -> & Hq). cbn [option_map].
  now rewrite (format_1f_Qeq _ _ Hq).
Qed.

(** ** The decoder: statements *)

Lemma reg2float_nonzero reg :
  reg <> 0 -> _reg2float reg = float_of_tenths (format_1f (result reg)).
Proof.
  intros Hnz. unfold _reg2float.
  destruct (Z.eqb_spec reg 0); [contradiction | reflexivity].
Qed.





(** C4: for a nonzero 32-bit word the exponent is [bits[30:23] - 127];
    the significand is [bits[22:0] / 2^23] when that exponent is 0 (the
    biased field is 127) and [1 + bits[22:0] / 2^23] otherwise, and it is
    the significand the returned value is computed from. *)
Theorem reg2float_significand reg :
  0 < reg < 2 ^ 32 ->
  let e := bits 30 23 reg - 127 in
  let f := (inject_Z (bits 22 0 reg) / inject_Z (2 ^ 23))%Q in
  let s := if bits 30 23 reg =? 127 then f else (1 + f)%Q in
  exp reg = e /\
  ((e =? 0) = (bits 30 23 reg =? 127)) /\
  man reg = s /\
  _reg2float reg =
    float_of_tenths
      (format_1f ((2 # 1) ^ e * s * inject_Z (sign reg * -2 + 1))%Q).
Proof.
  intros Hreg. cbv zeta.
  assert (He : (bits 30 23 reg - 127 =? 0) = (bits 30 23 reg =? 127)).
  { destruct (Z.eqb_spec (bits 30 23 reg - 127) 0),
      (Z.eqb_spec (bits 30 23 reg) 127); trivial; lia. }
  assert (Hman : man reg =
    if bits 30 23 reg =? 127
    then (inject_Z (bits 22 0 reg) / inject_Z (2 ^ 23))%Q
    else (1 + inject_Z (bits 22 0 reg) / inject_Z (2 ^ 23))%Q).
  { unfold man. rewrite exp_bits, He, mantissa_bits. reflexivity. }
  repeat split; trivial.
  - apply exp_bits.
  - rewrite reg2float_nonzero by lia. unfold result.
    rewrite Hman, exp_bits. reflexivity.
Qed.

Lemma reg2float_significand_witness :
  0 < 0x3FC00000 < 2 ^ 32 /\
  (man 0x3FC00000 == 1 # 2)%Q /\
  0 < 0x41C80000 < 2 ^ 32 /\
  (man 0x41C80000 == 25 # 16)%Q.
Proof.
  assert (H1 : 0 < 0x3FC00000 < 2 ^ 32) by (split; reflexivity).
  assert (H2 : 0 < 0x41C80000 < 2 ^ 32) by (split; reflexivity).
  split; [exact H1|]. split.
  - rewrite (proj1 (proj2 (proj2 (reg2float_significand 0x3FC00000 H1)))).
    reflexivity.
  - split; [exact H2|].
    rewrite (proj1 (proj2 (proj2 (reg2float_significand 0x41C80000 H2)))).
    reflexivity.
Defined.

Lemma format_1f_negated (a : Q) :
  format_1f (a * inject_Z (1 * -2 + 1)) = - format_1f (a * inject_Z (0 * -2 + 1)).
Proof.
  rewrite <- format_1f_opp. destruct a as [n d].
  unfold format_1f, Qmult, Qopp, inject_Z. cbn [Qnum Qden].
  f_equal. lia.
Qed.

(** C9: the word 0 decodes to 0.0; setting the sign bit of a word negates
    the decoded value; the word for +25.0 decodes to 25.0. *)
Theorem reg2float_zero_sign_25 b :
  0 <= b < 2 ^ 31 ->
  (_reg2float 0 == 0)%Q /\
  (_reg2float (Z.lor b 0x80000000) == - _reg2float b)%Q /\
  bits 31 31 word_25 = 0 /\ bits 30 23 word_25 = 131 /\
  (1 + inject_Z (bits 22 0 word_25) / pow2 23 == 15625 # 10000)%Q /\
  (_reg2float word_25 == 25)%Q.
Proof.
  intros Hb. split; [reflexivity|]. split; [|now vm_compute].
  destruct (Z.eq_dec b 0) as [-> | Hnz].
  - now vm_compute.
  - destruct (set_sign_bit b Hb) as (Hs0 & Hs1 & He & Hm).
    assert (Hb' : Z.lor b 0x80000000 <> 0).
    { intros H0. apply Z.lor_eq_0_iff in H0. lia. }
    rewrite (reg2float_nonzero _ Hb'), (reg2float_nonzero _ Hnz).
    unfold result, man. rewrite He, Hm, Hs0, Hs1, format_1f_negated.
    reflexivity.
Qed.

Lemma reg2float_zero_sign_25_witness :
  0 <= word_25 < 2 ^ 31 /\
  (_reg2float (Z.lor word_25 0x80000000) == - _reg2float word_25)%Q.
Proof.
  assert (Hb : 0 <= word_25 < 2 ^ 31) by (split; [discriminate | reflexivity]).
  split; [exact Hb|].
  exact (proj1 (proj2 (reg2float_zero_sign_25 word_25 Hb))).
Defined.

(** * More about the decoder *)

Lemma result_den_pos reg : 0 < result_den reg.
Proof. apply Z.pow_pos_nonneg; lia. Qed.

Lemma Qmake_div n d : 0 < d -> (n # Z.to_pos d == inject_Z n / inject_Z d)%Q.
Proof.
  intros Hd. rewrite (Qmake_Qdiv n (Z.to_pos d)).
  now rewrite Z2Pos.id.
Qed.

Lemma result_fraction reg :
  (result reg == result_num reg # Z.to_pos (result_den reg))%Q.
Proof.
  rewrite Qmake_div by apply result_den_pos.
  unfold result_num, result_den, result, man, significand, sign_factor.
  rewrite !inject_Z_mult, !inject_Z_pow2 by lia.
  assert (Hp : (pow2 (exp reg) ==
                pow2 23 * pow2 (Z.max 0 (exp reg - 23)) / pow2 (Z.max 0 (23 - exp reg)))%Q).
  { replace (exp reg) with (23 + Z.max 0 (exp reg - 23) - Z.max 0 (23 - exp reg)) at 1 by lia.
    unfold pow2. rewrite Qpower_minus, Qpower_plus by discriminate. reflexivity. }
  pose proof (pow2_nonzero 23) as H23.
  pose proof (pow2_nonzero (Z.max 0 (23 - exp reg))) as Hd.
  rewrite Hp. destruct (exp reg =? 0).
  - field. split; assumption.
  - rewrite (inject_Z_plus (2 ^ 23)).
    assert (H1 : (inject_Z (2 ^ 23) == pow2 23)%Q) by reflexivity.
    rewrite H1. field. split; assumption.
Qed.

(** The tenths of the decoded value, by integer arithmetic. *)
Lemma reg2float_fraction reg :
  reg <> 0 ->
  _reg2float reg =
  float_of_tenths (round_half_even (result_num reg * 10) (result_den reg)).
Proof.
  intros Hnz. rewrite reg2float_nonzero by trivial. f_equal.
  rewrite (format_1f_Qeq _ _ (result_fraction reg)).
  unfold format_1f. cbn [Qnum Qden]. now rewrite Z2Pos.id by apply result_den_pos.
Qed.

Lemma sign_factor_cases reg : sign_factor reg = 1 \/ sign_factor reg = -1.
Proof. unfold sign_factor. destruct (sign_01 reg) as [-> | ->]; auto. Qed.

Lemma significand_range reg :
  0 <= significand reg < 2 ^ 24 /\
  (exp reg = 0 -> significand reg < 2 ^ 23) /\
  (exp reg <> 0 -> 2 ^ 23 <= significand reg).
Proof.
  pose proof (mantissa_range reg) as Hm. unfold significand.
  change (2 ^ 24) with (2 ^ 23 + 2 ^ 23).
  destruct (Z.eqb_spec (exp reg) 0); repeat split; intros; lia.
Qed.

Lemma bits_exp_zero : bits 30 23 0 = 0.
Proof. reflexivity. Qed.

Lemma round_half_even_den_1 n : round_half_even n 1 = n.
Proof.
  unfold round_half_even. rewrite Z.div_1_r, Z.mod_1_r. reflexivity.
Qed.

(** X3: a word whose exponent field is at most 121, in particular every
    word that IEEE 754 reads as zero or subnormal, decodes to 0.0. *)
Theorem reg2float_small_is_zero reg :
  bits 30 23 reg <= 121 -> (_reg2float reg == 0)%Q.
Proof.
  intros Hf. destruct (Z.eq_dec reg 0) as [-> | Hnz]; [reflexivity|].
  rewrite reg2float_fraction by trivial.
  pose proof (exp_bits reg) as He.
  pose proof (significand_range reg) as (Hk & _ & _).
  pose proof (result_den_pos reg) as Hd.
  destruct (round_half_even_spec (result_num reg * 10) (result_den reg) Hd)
    as [Hn En].
  assert (Hden : 2 ^ 29 <= result_den reg).
  { unfold result_den. apply Z.pow_le_mono_r; lia. }
  assert (Hnum : Z.abs (result_num reg) < 2 ^ 24).
  { unfold result_num. replace (Z.max 0 (exp reg - 23)) with 0 by lia.
    change (2 ^ 0) with 1. destruct (sign_factor_cases reg) as [-> | ->]; lia. }
  change (2 ^ 29) with 536870912 in Hden. change (2 ^ 24) with 16777216 in Hnum.
  assert (Ht : round_half_even (result_num reg * 10) (result_den reg) = 0).
  { apply (nearest_even_unique (result_num reg * 10) (result_den reg));
      trivial; try lia. }
  rewrite Ht. reflexivity.
Qed.

Lemma reg2float_small_is_zero_witness :
  bits 30 23 0x3CFFFFFF <= 121 /\ (_reg2float 0x3CFFFFFF == 0)%Q.
Proof.
  assert (Hf : bits 30 23 0x3CFFFFFF <= 121) by discriminate.
  split; [exact Hf | exact (reg2float_small_is_zero 0x3CFFFFFF Hf)].
Defined.

(** X4: no word decodes to a value whose magnitude lies strictly between
    1.0 and 2.0: the words with exponent field 127 lose the leading 1 and
    land below 1. *)
Theorem reg2float_never_between_1_and_2 reg :
  ~ (1 < Qabs (_reg2float reg) /\ Qabs (_reg2float reg) < 2)%Q.
Proof.
  destruct (Z.eq_dec reg 0) as [-> | Hnz].
  { intros [H1 _]. discriminate H1. }
  rewrite reg2float_fraction by trivial.
  pose proof (exp_range reg) as He.
  pose proof (significand_range reg) as (Hk & Hk0 & Hk1).
  pose proof (result_den_pos reg) as Hd.
  destruct (round_half_even_spec (result_num reg * 10) (result_den reg) Hd)
    as [Hn _].
  set (t := round_half_even (result_num reg * 10) (result_den reg)) in *.
  assert (Hgap : Z.abs t <= 10 \/ 20 <= Z.abs t).
  { destruct (Z_le_gt_dec (exp reg) 0) as [Hle | Hgt].
    - left.
      assert (Hnd : Z.abs (result_num reg) <= result_den reg).
      { unfold result_num, result_den.
        replace (Z.max 0 (exp reg - 23)) with 0 by lia.
        replace (Z.max 0 (23 - exp reg)) with (23 - exp reg) by lia.
        change (2 ^ 0) with 1.
        assert (Z.abs (sign_factor reg * significand reg * 1) = significand reg)
          as -> by (destruct (sign_factor_cases reg) as [-> | ->]; lia).
        destruct (Z.eq_dec (exp reg) 0) as [E0 | E0].
        + rewrite E0. specialize (Hk0 E0). change (23 - 0) with 23. lia.
        + assert (2 ^ 24 <= 2 ^ (23 - exp reg)) by (apply Z.pow_le_mono_r; lia).
          lia. }
      nia.
    - right.
      assert (Hnd : 2 * result_den reg <= Z.abs (result_num reg)).
      { unfold result_num, result_den.
        assert (0 < 2 ^ Z.max 0 (exp reg - 23)) by (apply Z.pow_pos_nonneg; lia).
        assert (Z.abs (sign_factor reg * significand reg * 2 ^ Z.max 0 (exp reg - 23))
                = significand reg * 2 ^ Z.max 0 (exp reg - 23))
          as -> by (destruct (sign_factor_cases reg) as [-> | ->]; nia).
        specialize (Hk1 ltac:(lia)).
        destruct (Z_le_gt_dec (exp reg) 23) as [H23 | H23].
        + replace (Z.max 0 (exp reg - 23)) with 0 by lia.
          replace (Z.max 0 (23 - exp reg)) with (23 - exp reg) by lia.
          change (2 ^ 0) with 1.
          assert (2 ^ (23 - exp reg) <= 2 ^ 22) by (apply Z.pow_le_mono_r; lia).
          change (2 ^ 22) with 4194304 in *. change (2 ^ 23) with 8388608 in *.
          lia.
        + replace (Z.max 0 (23 - exp reg)) with 0 by lia.
          change (2 ^ 0) with 1. change (2 ^ 23) with 8388608 in *. nia. }
      nia. }
  unfold float_of_tenths, Qabs, Qlt. cbn [Qnum Qden]. lia.
Qed.

(** X5: a word with exponent field 255, an infinity or a NaN for
    IEEE 754, decodes without rounding to a finite number of magnitude
    between 2^128 and 2^129. *)
Theorem reg2float_exponent_255_finite reg :
  bits 30 23 reg = 255 ->
  (_reg2float reg == result reg)%Q /\
  (inject_Z (2 ^ 128) <= Qabs (_reg2float reg))%Q /\
  (Qabs (_reg2float reg) < inject_Z (2 ^ 129))%Q.
Proof.
  intros Hf.
  assert (Hnz : reg <> 0) by (intros ->; discriminate Hf).
  assert (He : exp reg = 128) by (rewrite exp_bits; lia).
  pose proof (significand_range reg) as (Hk & _ & Hk1).
  specialize (Hk1 ltac:(lia)).
  assert (Hden : result_den reg = 1) by (unfold result_den; now rewrite He).
  assert (Hnum : result_num reg = sign_factor reg * significand reg * 2 ^ 105)
    by (unfold result_num; now rewrite He).
  pose proof (result_fraction reg) as Hfrac. rewrite Hden in Hfrac.
  rewrite reg2float_fraction, Hden, round_half_even_den_1 by trivial.
  split; [|split].
  - rewrite Hfrac. unfold float_of_tenths, Qeq. cbn [Qnum Qden Z.to_pos]. lia.
  - unfold float_of_tenths, Qabs, Qle, inject_Z. cbn [Qnum Qden]. rewrite Hnum.
    change (2 ^ 128) with (2 ^ 23 * 2 ^ 105).
    assert (0 < 2 ^ 105) by reflexivity.
    destruct (sign_factor_cases reg) as [-> | ->]; nia.
  - unfold float_of_tenths, Qabs, Qlt, inject_Z. cbn [Qnum Qden]. rewrite Hnum.
    change (2 ^ 129) with (2 ^ 24 * 2 ^ 105).
    assert (0 < 2 ^ 105) by reflexivity.
    destruct (sign_factor_cases reg) as [-> | ->]; nia.
Qed.

Lemma reg2float_exponent_255_finite_witness :
  bits 30 23 0x7F800000 = 255 /\
  (_reg2float 0x7F800000 == inject_Z (2 ^ 128))%Q.
Proof.
  assert (Hf : bits 30 23 0x7F800000 = 255) by reflexivity.
  split; [exact Hf|].
  rewrite (proj1 (reg2float_exponent_255_finite 0x7F800000 Hf)).
  now vm_compute.
Defined.

Lemma low_32_bits_fields reg :
  sign (reg mod 2 ^ 32) = sign reg /\ exp (reg mod 2 ^ 32) = exp reg /\
  mantissa (reg mod 2 ^ 32) = mantissa reg.
Proof.
  unfold sign, exp, mantissa.
  rewrite <- (Z.land_ones reg 32) by lia.
  rewrite <- !(Z.land_assoc reg (Z.ones 32)).
  repeat split.
Qed.

(** X2: the decoded value depends on the low 32 bits of the argument
    only, so a negative or wider integer decodes like its 32-bit
    pattern. *)
Theorem reg2float_low_32_bits reg :
  (_reg2float reg == _reg2float (reg mod 2 ^ 32))%Q.
Proof.
  destruct (low_32_bits_fields reg) as (Hs & He & Hm).
  assert (Hres : result (reg mod 2 ^ 32) = result reg).
  { unfold result, man. now rewrite Hs, He, Hm. }
  destruct (Z.eq_dec reg 0) as [-> | Hnz]; [reflexivity|].
  rewrite (reg2float_nonzero reg Hnz).
  destruct (Z.eq_dec (reg mod 2 ^ 32) 0) as [E0 | Hnz'].
  - rewrite <- Hres, E0. reflexivity.
  - now rewrite (reg2float_nonzero _ Hnz'), Hres.
Qed.

(** ** Order *)

Lemma round_half_even_mono n1 d1 n2 d2 :
  0 < d1 -> 0 < d2 -> n1 * d2 <= n2 * d1 ->
  round_half_even n1 d1 <= round_half_even n2 d2.
Proof.
  intros Hd1 Hd2 Hle.
  destruct (round_half_even_spec n1 d1 Hd1) as [H1 E1].
  destruct (round_half_even_spec n2 d2 Hd2) as [H2 E2].
  set (t1 := round_half_even n1 d1) in *.
  set (t2 := round_half_even n2 d2) in *.
  destruct (Z_le_gt_dec t1 t2) as [|Hgt]; trivial. exfalso.
  assert (Ha : 2 * n1 * d2 >= (2 * t1 - 1) * d1 * d2) by nia.
  assert (Hb : 2 * n2 * d1 <= (2 * t2 + 1) * d1 * d2) by nia.
  assert (Hc : (2 * t1 - 1) * (d1 * d2) <= (2 * t2 + 1) * (d1 * d2)) by nia.
  assert (Ht : t1 = t2 + 1) by nia.
  assert (T1 : Z.abs (2 * n1 - 2 * t1 * d1) = d1) by nia.
  assert (T2 : Z.abs (2 * n2 - 2 * t2 * d2) = d2) by nia.
  specialize (E1 T1). specialize (E2 T2). rewrite Ht in E1.
  replace (t2 + 1) with (Z.succ t2) in E1 by lia.
  rewrite Z.even_succ, <- Z.negb_even, E2 in E1. discriminate.
Qed.

Lemma magnitude_fraction reg :
  sign reg = 0 ->
  result_num reg * 2 ^ 150 = magnitude reg * result_den reg.
Proof.
  intros Hs. pose proof (exp_range reg) as He.
  unfold result_num, result_den, magnitude, sign_factor. rewrite Hs.
  change (0 * -2 + 1) with 1. rewrite Z.mul_1_l, <- !Z.mul_assoc. f_equal.
  rewrite <- !Z.pow_add_r by lia. f_equal. lia.
Qed.

Lemma word_fields a :
  0 <= a < 2 ^ 31 ->
  sign a = 0 /\ exp a = a / 2 ^ 23 - 127 /\ mantissa a = a mod 2 ^ 23.
Proof.
  intros Ha. rewrite sign_bits, exp_bits, mantissa_bits. unfold bits.
  change (2 ^ (31 - 31 + 1)) with 2. change (2 ^ (30 - 23 + 1)) with 256.
  change (2 ^ (22 - 0 + 1)) with 8388608. change (2 ^ 0) with 1.
  change (2 ^ 23) with 8388608. change (2 ^ 31) with 2147483648 in *.
  repeat split; Z.to_euclidean_division_equations; lia.
Qed.

Lemma magnitude_mono a b :
  0 <= a <= b -> b < 2 ^ 31 ->
  bits 30 23 a <> 127 -> bits 30 23 b <> 127 ->
  magnitude a <= magnitude b.
Proof.
  intros Hab Hb Fa Fb.
  destruct (word_fields a ltac:(lia)) as (_ & Ea & Ma).
  destruct (word_fields b ltac:(lia)) as (_ & Eb & Mb).
  pose proof (exp_bits a) as Ea'. pose proof (exp_bits b) as Eb'.
  pose proof (significand_range a) as (Ka & _ & Ka1).
  pose proof (significand_range b) as (Kb & _ & Kb1).
  specialize (Ka1 ltac:(lia)). specialize (Kb1 ltac:(lia)).
  pose proof (exp_range a) as Ra. pose proof (exp_range b) as Rb.
  assert (Hdiv : a / 2 ^ 23 <= b / 2 ^ 23) by (apply Z.div_le_mono; lia).
  unfold magnitude.
  destruct (Z.eq_dec (exp a) (exp b)) as [Heq | Hne].
  - rewrite Heq.
    assert (0 < 2 ^ (exp b + 127)) by (apply Z.pow_pos_nonneg; lia).
    assert (significand a <= significand b).
    { unfold significand.
      destruct (Z.eqb_spec (exp a) 0); [lia|].
      destruct (Z.eqb_spec (exp b) 0); [lia|].
      rewrite Ma, Mb.
      pose proof (Z.div_mod a (2 ^ 23) ltac:(lia)).
      pose proof (Z.div_mod b (2 ^ 23) ltac:(lia)). lia. }
    nia.
  - assert (Hlt : exp a + 127 + 1 <= exp b + 127) by lia.
    assert (0 < 2 ^ (exp a + 127)) by (apply Z.pow_pos_nonneg; lia).
    assert (2 ^ (exp a + 127 + 1) <= 2 ^ (exp b + 127))
      by (apply Z.pow_le_mono_r; lia).
    rewrite Z.pow_add_r in * by lia. change (2 ^ 1) with 2 in *.
    change (2 ^ 24) with 16777216 in *. change (2 ^ 23) with 8388608 in *.
    nia.
Qed.

(** X10: among the words with the sign bit clear whose exponent field
    is not 127, a larger word never decodes to a smaller value. *)
Theorem reg2float_monotone a b :
  0 <= a <= b -> b < 2 ^ 31 ->
  bits 30 23 a <> 127 -> bits 30 23 b <> 127 ->
  (_reg2float a <= _reg2float b)%Q.
Proof.
  intros Hab Hb Fa Fb.
  destruct (word_fields a ltac:(lia)) as (Sa & _ & _).
  destruct (word_fields b ltac:(lia)) as (Sb & _ & _).
  pose proof (magnitude_mono a b Hab Hb Fa Fb) as Hm.
  pose proof (magnitude_fraction a Sa) as Ga.
  pose proof (magnitude_fraction b Sb) as Gb.
  pose proof (result_den_pos a) as Da. pose proof (result_den_pos b) as Db.
  assert (Hfrac : result_num a * result_den b <= result_num b * result_den a).
  { assert (HP : 0 < 2 ^ 150) by reflexivity.
    apply (Z.mul_le_mono_pos_r _ _ (2 ^ 150) HP).
    replace (result_num a * result_den b * 2 ^ 150)
      with (result_num a * 2 ^ 150 * result_den b) by ring.
    replace (result_num b * result_den a * 2 ^ 150)
      with (result_num b * 2 ^ 150 * result_den a) by ring.
    rewrite Ga, Gb.
    replace (magnitude b * result_den b * result_den a)
      with (magnitude b * result_den a * result_den b) by ring.
    apply Z.mul_le_mono_nonneg_r; [lia|].
    apply Z.mul_le_mono_nonneg_r; [lia | exact Hm]. }
  destruct (Z.eq_dec a 0) as [-> | Ha0].
  - destruct (Z.eq_dec b 0) as [-> | Hb0]; [apply Qle_refl|].
    rewrite (reg2float_fraction b) by trivial.
    assert (Hnum : 0 <= result_num b).
    { unfold result_num, sign_factor. rewrite Sb.
      pose proof (significand_range b) as (Kb & _).
      assert (0 < 2 ^ Z.max 0 (exp b - 23)) by (apply Z.pow_pos_nonneg; lia).
      nia. }
    pose proof (round_half_even_mono 0 1 (result_num b * 10) (result_den b)
                  ltac:(lia) Db ltac:(lia)) as Hpos.
    rewrite round_half_even_den_1 in Hpos.
    unfold float_of_tenths, Qle. cbn. lia.
  - rewrite !reg2float_fraction by lia.
    unfold float_of_tenths, Qle. cbn [Qnum Qden].
    assert (round_half_even (result_num a * 10) (result_den a)
            <= round_half_even (result_num b * 10) (result_den b))
      by (apply round_half_even_mono; trivial; nia).
    lia.
Qed.

Lemma reg2float_monotone_witness :
  0 <= 0x41C80000 <= 0x41C8CCCD /\ 0x41C8CCCD < 2 ^ 31 /\
  bits 30 23 0x41C80000 <> 127 /\ bits 30 23 0x41C8CCCD <> 127 /\
  (_reg2float 0x41C80000 <= _reg2float 0x41C8CCCD)%Q.
Proof.
  assert (Hab : 0 <= 0x41C80000 <= 0x41C8CCCD) by (split; discriminate).
  assert (Hb : 0x41C8CCCD < 2 ^ 31) by reflexivity.
  assert (Fa : bits 30 23 0x41C80000 <> 127) by discriminate.
  assert (Fb : bits 30 23 0x41C8CCCD <> 127) by discriminate.
  repeat (split; trivial).
  exact (reg2float_monotone 0x41C80000 0x41C8CCCD Hab Hb Fa Fb).
Defined.

(** * Properties of the driver *)

Section DriverProperties.
Context `{Platform}.
Local Open Scope py_scope.

(** ** Preservation of instance properties *)

Section Preserves.
Variable I : TMP2 -> Prop.

Lemma preserves_ret {A} (a : A) : preserves I (ret a).
Proof. intros w Hw. exact Hw. Qed.

Lemma preserves_raise {A} e : preserves I (@raise A e).
Proof. intros w Hw. exact Hw. Qed.

Lemma preserves_spin {A} : preserves I (@spin A).
Proof. intros w Hw. exact Hw. Qed.

Lemma preserves_emit e : preserves I (emit e).
Proof. intros w Hw. exact Hw. Qed.

Lemma preserves_get_self : preserves I get_self.
Proof. intros w Hw. exact Hw. Qed.

Lemma preserves_mmio_read a : preserves I (mmio_read a).
Proof. intros w Hw. exact Hw. Qed.

Lemma preserves_update f :
  (forall s, I s -> I (f s)) -> preserves I (update_self f).
Proof. intros Hf w Hw. apply Hf, Hw. Qed.

Lemma preserves_getattr name : preserves I (getattr_decoder name).
Proof.
  unfold getattr_decoder. destruct (TMP2_decoder name).
  - apply preserves_ret.
  - apply preserves_raise.
Qed.

Lemma preserves_bind {A B} (m : M A) (k : A -> M B) :
  preserves I m -> (forall a, preserves I (k a)) -> preserves I (bind m k).
Proof.
  intros Hm Hk w Hw. unfold bind. specialize (Hm w Hw).
  destruct (m w) as [[a | e |] w']; cbn [snd] in *; trivial.
  apply Hk, Hm.
Qed.

Lemma preserves_poll fuel : preserves I (poll fuel).
Proof.
  induction fuel as [|fuel IH]; cbn [poll].
  - apply preserves_spin.
  - apply preserves_bind; [apply preserves_mmio_read|].
    intros c. destruct (c =? 3); [exact IH | apply preserves_ret].
Qed.

Lemma preserves_log_loop xs : forall cp, preserves I (log_loop xs cp).
Proof.
  induction xs as [|x xs IH]; intros cp; cbn [log_loop].
  - apply preserves_ret.
  - apply preserves_bind; [apply preserves_mmio_read|]. intros temp.
    apply preserves_bind; [apply preserves_getattr|]. intros f.
    apply preserves_bind; [apply preserves_emit|]. intros _. apply IH.
Qed.

Lemma preserves_stop_log : preserves I stop_log.
Proof. apply preserves_emit. Qed.

Lemma preserves_print_log : preserves I print_log.
Proof.
  unfold print_log.
  apply preserves_bind; [apply preserves_stop_log|]. intros _.
  apply preserves_bind; [apply preserves_mmio_read|]. intros p.
  destruct (log_window p) as [[cp e] count].
  apply preserves_bind; [apply preserves_emit|]. intros _.
  apply preserves_log_loop.
Qed.

Lemma preserves_read fuel :
  (forall v s, I s -> I (with_value v s)) -> preserves I (read fuel).
Proof.
  intros Hv. unfold read.
  apply preserves_bind; [apply preserves_emit|]. intros _.
  apply preserves_bind; [apply preserves_poll|]. intros _.
  apply preserves_bind; [apply preserves_mmio_read|]. intros v.
  apply preserves_bind; [apply preserves_update, Hv|]. intros _.
  apply preserves_bind; [apply preserves_getattr|]. intros f.
  apply preserves_ret.
Qed.

Lemma preserves_set_log_ms ms :
  (0 <= ms -> forall s, I s -> I (with_log_ms ms s)) ->
  preserves I (set_log_ms ms).
Proof.
  intros Hms. unfold set_log_ms. destruct (Z.ltb_spec ms 0).
  - apply preserves_raise.
  - apply preserves_bind; [apply preserves_update, Hms; lia|]. intros _.
    apply preserves_bind; [apply preserves_get_self|]. intros s.
    apply preserves_emit.
Qed.

End Preserves.

(** ** Logging control *)

Lemma set_log_ms_negative ms w :
  ms < 0 ->
  set_log_ms ms w =
  (Raises (ValueError "Log length should not be less than 0."), w).
Proof.
  intros Hms. unfold set_log_ms.
  destruct (Z.ltb_spec ms 0); [reflexivity | lia].
Qed.

Lemma set_log_ms_accepted ms w :
  0 <= ms ->
  set_log_ms ms w =
  (Returns tt,
   {| self := with_log_ms ms (self w); nreads := nreads w;
      trace := trace w ++ [MmioWrite (MAILBOX_OFFSET + 4) ms] |}).
Proof.
  intros Hms. unfold set_log_ms.
  destruct (Z.ltb_spec ms 0); [lia | reflexivity].
Qed.

(** ** The polling loop *)

Lemma poll_reads_S n0 k :
  poll_reads n0 (S k) =
  MmioRead cmd_cell (mmio_word n0 cmd_cell) :: poll_reads (S n0) k.
Proof.
  unfold poll_reads. cbn [seq map]. rewrite Nat.add_0_r. f_equal.
  rewrite <- seq_shift, map_map. apply map_ext. intros i.
  now rewrite Nat.add_succ_r.
Qed.

Lemma poll_cleared k : forall fuel w,
  (forall i, (i < k)%nat -> mmio_word (nreads w + i) cmd_cell = 3) ->
  mmio_word (nreads w + k) cmd_cell <> 3 ->
  (k < fuel)%nat ->
  poll fuel w =
  (Returns tt,
   {| self := self w; nreads := nreads w + S k;
      trace := trace w ++ poll_reads (nreads w) (S k) |}).
Proof.
  induction k as [|k IH]; intros fuel w Hbusy Hdone Hfuel;
    (destruct fuel as [|fuel]; [lia|]); cbn [poll]; unfold bind, mmio_read.
  - rewrite Nat.add_0_r in Hdone.
    destruct (Z.eqb_spec (mmio_word (nreads w) cmd_cell) 3); [contradiction|].
    unfold ret, poll_reads. cbn [seq map]. now rewrite Nat.add_0_r, Nat.add_1_r.
  - pose proof (Hbusy 0%nat ltac:(lia)) as H0. rewrite Nat.add_0_r in H0.
    rewrite H0. cbn [Z.eqb Pos.eqb].
    rewrite IH; cbn [nreads self trace].
    + rewrite (poll_reads_S (nreads w) (S k)), <- app_assoc, H0.
      replace (S (nreads w) + S k)%nat with (nreads w + S (S k))%nat by lia.
      reflexivity.
    + intros i Hi. specialize (Hbusy (S i) ltac:(lia)).
      now rewrite Nat.add_succ_r in Hbusy.
    + now rewrite Nat.add_succ_r in Hdone.
    + lia.
Qed.

Lemma poll_stuck fuel : forall w,
  (forall k, mmio_word (nreads w + k) cmd_cell = 3) ->
  poll fuel w =
  (Spins,
   {| self := self w; nreads := nreads w + fuel;
      trace := trace w ++ poll_reads (nreads w) fuel |}).
Proof.
  induction fuel as [|fuel IH]; intros w Hbusy; cbn [poll].
  - unfold spin, poll_reads. cbn [seq map].
    rewrite Nat.add_0_r, app_nil_r. now destruct w.
  - unfold bind, mmio_read.
    pose proof (Hbusy 0%nat) as H0. rewrite Nat.add_0_r in H0.
    rewrite H0. cbn [Z.eqb Pos.eqb].
    rewrite IH; cbn [nreads self trace].
    + rewrite (poll_reads_S (nreads w) fuel), <- app_assoc, H0.
      replace (S (nreads w) + fuel)%nat with (nreads w + S fuel)%nat by lia.
      reflexivity.
    + intros k. specialize (Hbusy (S k)).
      now rewrite Nat.add_succ_r in Hbusy.
Qed.

(** A cell that is cleared at some poll is cleared at a first one. *)
Lemma first_cleared (f : nat -> Z) k :
  f k <> 3 ->
  exists k0, (k0 <= k)%nat /\ (forall i, (i < k0)%nat -> f i = 3) /\ f k0 <> 3.
Proof.
  intros Hk.
  assert (Hsearch : forall n,
    (forall i, (i < n)%nat -> f i = 3) \/
    exists k0, (k0 < n)%nat /\ (forall i, (i < k0)%nat -> f i = 3) /\ f k0 <> 3).
  { induction n as [|n [Hall | (k0 & Hlt & Hfirst)]].
    - left. intros i Hi. lia.
    - destruct (Z.eq_dec (f n) 3) as [Hn | Hn].
      + left. intros i Hi.
        destruct (Nat.eq_dec i n) as [-> |]; [exact Hn | apply Hall; lia].
      + right. exists n. auto.
    - right. exists k0. split; [lia | exact Hfirst]. }
  destruct (Hsearch (S k)) as [Hall | (k0 & Hlt & Hfirst)].
  - exfalso. apply Hk, Hall. lia.
  - exists k0. split; [lia | exact Hfirst].
Qed.

(** ** The log dump *)

Lemma range_cons count :
  1 <= count -> range count = 0 :: map Z.of_nat (seq 1 (Z.to_nat count - 1)).
Proof.
  intros Hc. unfold range.
  destruct (Z.to_nat count) as [|n] eqn:Hn; [lia|].
  replace (S n - 1)%nat with n by lia. reflexivity.
Qed.

Lemma log_window_count p :
  1 <= p -> 1 <= snd (log_window p) /\ snd (log_window p) = Z.min p 1000.
Proof.
  intros Hp. unfold log_window.
  destruct (Z.geb_spec p 1000); cbn [snd]; lia.
Qed.

(** With at least one entry to dump, the dump stops the log, reads the
    end pointer, prints the header, reads slot 0 and fails on the lookup
    of [reg2float]. *)
Lemma print_log_run w :
  let p := mmio_word (nreads w) (MAILBOX_OFFSET + 8) in
  1 <= p ->
  print_log w =
  (Raises (AttributeError "reg2float"),
   {| self := self w; nreads := S (S (nreads w));
      trace := trace w ++
        [MmioWrite cmd_cell 1;
         MmioRead (MAILBOX_OFFSET + 8) p;
         Print (Text header);
         MmioRead (slot_offset 0)
                  (mmio_word (S (nreads w)) (slot_offset 0))] |}).
Proof.
  intros p Hp.
  destruct (log_window_count p Hp) as [Hc _].
  unfold print_log, stop_log, mmio_write, bind, emit, mmio_read, print.
  cbn [self nreads trace]. fold p.
  destruct (log_window p) as [[cp e] count]. cbn [snd] in Hc.
  rewrite (range_cons count Hc). cbn [log_loop].
  unfold bind, mmio_read, getattr_decoder. cbn [self nreads trace].
  replace (MAILBOX_OFFSET + (3 + 0) * 4) with (slot_offset 0)
    by (unfold slot_offset; lia).
  cbn. rewrite <- !app_assoc. reflexivity.
Qed.

(** With nothing to dump, the dump returns after the header. *)
Lemma print_log_empty w :
  let p := mmio_word (nreads w) (MAILBOX_OFFSET + 8) in
  p <= 0 ->
  print_log w =
  (Returns tt,
   {| self := self w; nreads := S (nreads w);
      trace := trace w ++
        [MmioWrite cmd_cell 1;
         MmioRead (MAILBOX_OFFSET + 8) p;
         Print (Text header)] |}).
Proof.
  intros p Hp.
  unfold print_log, stop_log, mmio_write, bind, emit, mmio_read, print.
  cbn [self nreads trace]. fold p. unfold log_window.
  destruct (Z.geb_spec p 1000); [lia|].
  unfold range. replace (Z.to_nat p) with 0%nat by lia.
  cbn. rewrite <- !app_assoc. reflexivity.
Qed.

End DriverProperties.

(** * The driver: statements *)

Section DriverStatements.
Context `{Platform}.

(** C5: [read] writes opcode 3 to the command cell and polls it.  If
    some poll sees a value other than 3, the call returns, whenever the
    loop is given more iterations than the first such poll needs, the
    decoded word of the data cell at offset +0 read right after; if every
    poll sees 3, the call is still polling after any number of
    iterations. *)
Theorem read_polls_until_cleared w :
  let n0 := nreads w in
  ((exists k, mmio_word (n0 + k) cmd_cell <> 3) ->
   exists k0,
     (forall i, (i < k0)%nat -> mmio_word (n0 + i) cmd_cell = 3) /\
     mmio_word (n0 + k0) cmd_cell <> 3 /\
     forall fuel, (k0 < fuel)%nat ->
       let d := mmio_word (n0 + S k0) MAILBOX_OFFSET in
       read fuel w =
       (Returns (_reg2float d),
        {| self := with_value d (self w);
           nreads := n0 + S (S k0);
           trace := trace w ++ MmioWrite cmd_cell 3 ::
                    poll_reads n0 (S k0) ++ [MmioRead MAILBOX_OFFSET d] |}))
  /\
  ((forall k, mmio_word (n0 + k) cmd_cell = 3) ->
   forall fuel,
     read fuel w =
     (Spins,
      {| self := self w; nreads := n0 + fuel;
         trace := trace w ++ MmioWrite cmd_cell 3 :: poll_reads n0 fuel |})).
Proof.
  cbv zeta. split.
  - intros [k Hk].
    destruct (first_cleared (fun i => mmio_word (nreads w + i) cmd_cell) k Hk)
      as (k0 & _ & Hbusy & Hdone).
    exists k0. split; [exact Hbusy|]. split; [exact Hdone|].
    intros fuel Hfuel. unfold read, bind at 1, mmio_write, emit.
    unfold bind at 1.
    rewrite (poll_cleared k0 fuel); cbn [self nreads trace]; trivial.
    unfold bind, mmio_read, update_self, getattr_decoder, ret.
    cbn [self nreads trace TMP2_decoder String.eqb Ascii.eqb Bool.eqb].
    rewrite <- !app_assoc. cbn [app].
    replace (S (nreads w + S k0)) with (nreads w + S (S k0))%nat by lia.
    reflexivity.
  - intros Hbusy fuel. unfold read, bind at 1, mmio_write, emit.
    unfold bind at 1.
    rewrite poll_stuck; cbn [self nreads trace]; trivial.
    rewrite <- !app_assoc. reflexivity.
Qed.

(** C6: a negative length raises [ValueError] and leaves the instance and
    the mailbox as they were; any other length is stored in [log_ms] and
    written to the cell at offset +4. *)
Theorem set_log_ms_checks_sign ms w :
  (ms < 0 ->
   set_log_ms ms w =
   (Raises (ValueError "Log length should not be less than 0."), w)) /\
  (0 <= ms ->
   set_log_ms ms w =
   (Returns tt,
    {| self := with_log_ms ms (self w); nreads := nreads w;
       trace := trace w ++ [MmioWrite (MAILBOX_OFFSET + 4) ms] |})).
Proof.
  split; [apply set_log_ms_negative | apply set_log_ms_accepted].
Qed.

(** C7: for a length that is not negative, [start_log] writes the length
    to offset +4 and then opcode 7 to the command cell; [stop_log] writes
    opcode 1 to the command cell; neither reads the mailbox. *)
Theorem start_stop_log_writes ms w :
  0 <= ms ->
  start_log ms w =
  (Returns tt,
   {| self := with_log_ms ms (self w); nreads := nreads w;
      trace := trace w ++ [MmioWrite (MAILBOX_OFFSET + 4) ms;
                           MmioWrite cmd_cell 7] |}) /\
  stop_log w =
  (Returns tt,
   {| self := self w; nreads := nreads w;
      trace := trace w ++ [MmioWrite cmd_cell 1] |}).
Proof.
  intros Hms. split; [|reflexivity].
  unfold start_log, bind.
  rewrite (set_log_ms_accepted ms w Hms).
  unfold mmio_write, emit. cbn [self nreads trace].
  now rewrite <- app_assoc.
Qed.

Lemma perform_preserves (I : TMP2 -> Prop) fuel c :
  (forall v s, I s -> I (with_value v s)) ->
  (forall ms s, 0 <= ms -> I s -> I (with_log_ms ms s)) ->
  preserves I (perform fuel c).
Proof.
  intros Hv Hl. destruct c; cbn [perform].
  - apply preserves_bind; [apply preserves_read, Hv|].
    intros _. apply preserves_ret.
  - apply preserves_set_log_ms. intros Hms s. now apply Hl.
  - apply preserves_bind; [|intros _; apply preserves_emit].
    apply preserves_set_log_ms. intros Hms s. now apply Hl.
  - apply preserves_stop_log.
  - apply preserves_print_log.
Qed.

(** C8: [log_ms] is 0 after construction, and no operation makes it
    negative, whether it returns, raises or keeps polling. *)
Theorem log_ms_never_negative pmod_id w0 fuel c w :
  (__init__ pmod_id = Returns w0 -> log_ms (self w0) = 0) /\
  (0 <= log_ms (self w) -> 0 <= log_ms (self (snd (perform fuel c w)))).
Proof.
  split.
  - unfold __init__. destruct (request_iop pmod_id PROGRAM); [|discriminate].
    intros Hw0. injection Hw0 as <-. reflexivity.
  - apply (perform_preserves (fun s => 0 <= log_ms s)).
    + intros v s Hs. exact Hs.
    + intros ms s Hms _. exact Hms.
Qed.

(** C10: [start_log] with a negative length raises [ValueError] with the
    instance and the mailbox untouched: nothing was written. *)
Theorem start_log_negative_atomic ms w :
  ms < 0 ->
  start_log ms w =
  (Raises (ValueError "Log length should not be less than 0."), w).
Proof.
  intros Hms. unfold start_log, bind.
  now rewrite (set_log_ms_negative ms w Hms).
Qed.

(** C1, as the code has it: with [p] the end pointer read at +8, the
    dump stops the log, reads [p], prints the header and enters its loop;
    the loop body for index [x], whenever it runs, first reads the word
    of slot [x], at +12 + 4*x, whatever [p] and the wrapping pointer are;
    and with [p >= 1] the first raw word read is that of slot 0. *)
Theorem print_log_reads_from_slot_0 w p :
  mmio_word (nreads w) (MAILBOX_OFFSET + 8) = p ->
  print_log w =
    log_loop (range (if 1000 <=? p then 1000 else p))
             (if 1000 <=? p then p - 999 else 0)
             {| self := self w; nreads := S (nreads w);
                trace := trace w ++ [MmioWrite cmd_cell 1;
                                     MmioRead (MAILBOX_OFFSET + 8) p;
                                     Print (Text header)] |} /\
  (forall x xs current_ptr w',
     exists rest,
       trace (snd (log_loop (x :: xs) current_ptr w')) =
       trace w' ++
       MmioRead (slot_offset x) (mmio_word (nreads w') (slot_offset x))
       :: rest) /\
  (1 <= p -> hd_error (dump_reads w) = Some (slot_offset 0)).
Proof.
  intros Hp. split; [|split].
  - unfold print_log, stop_log, mmio_write, bind at 1, emit.
    unfold bind at 1, mmio_read. cbn [self nreads trace]. rewrite Hp.
    unfold log_window.
    destruct (Z.geb_spec p 1000), (Z.leb_spec 1000 p); try lia;
      unfold bind at 1, print, emit; cbn [self nreads trace];
      rewrite <- !app_assoc; reflexivity.
  - intros x xs current_ptr w'. exists []. cbn [log_loop].
    unfold bind, mmio_read, getattr_decoder. cbn.
    replace (MAILBOX_OFFSET + (3 + x) * 4) with (slot_offset x)
      by (unfold slot_offset; lia).
    reflexivity.
  - intros Hge. unfold dump_reads.
    rewrite print_log_run by (rewrite Hp; lia).
    cbn [snd trace]. rewrite skipn_app, skipn_all, Nat.sub_diag.
    reflexivity.
Qed.

(** C2, what the code does when there is at least one entry to dump:
    the call raises [AttributeError] for the name [reg2float], and no
    entry has been printed. *)
Theorem print_log_raises w :
  let p := mmio_word (nreads w) (MAILBOX_OFFSET + 8) in
  let count := snd (log_window p) in
  1 <= count ->
  fst (print_log w) = Raises (AttributeError "reg2float") /\
  filter is_entry (trace (snd (print_log w))) = filter is_entry (trace w).
Proof.
  cbv zeta. intros Hc.
  assert (Hp : 1 <= mmio_word (nreads w) (MAILBOX_OFFSET + 8)).
  { unfold log_window in Hc.
    destruct (Z.geb_spec (mmio_word (nreads w) (MAILBOX_OFFSET + 8)) 1000);
      cbn [snd] in Hc; lia. }
  rewrite (print_log_run w Hp). cbn [fst snd trace]. split; [reflexivity|].
  rewrite filter_app. cbn [filter is_entry]. apply app_nil_r.
Qed.

End DriverStatements.

(** * More about the driver *)

Section SessionProperties.
Context `{Platform}.
Local Open Scope py_scope.

Section Frame.
Variable J : TMP2 -> list event -> Prop.
Hypothesis J_routine : forall s tr e, routine_event e -> J s tr -> J s (tr ++ [e]).
Hypothesis J_value : forall s tr v, J s tr -> J (with_value v s) tr.
Hypothesis J_length : forall s tr ms,
  0 <= ms -> J s tr ->
  J (with_log_ms ms s) (tr ++ [MmioWrite (MAILBOX_OFFSET + 4) ms]).

Lemma keeps_ret {A} (a : A) : keeps J (ret a).
Proof. intros w Hw. exact Hw. Qed.

Lemma keeps_raise {A} e : keeps J (@raise A e).
Proof. intros w Hw. exact Hw. Qed.

Lemma keeps_bind {A B} (m : M A) (k : A -> M B) :
  keeps J m -> (forall a, keeps J (k a)) -> keeps J (bind m k).
Proof.
  intros Hm Hk w Hw. unfold bind. specialize (Hm w Hw).
  destruct (m w) as [[a | e |] w']; cbn [snd] in *; trivial.
  apply Hk, Hm.
Qed.

Lemma keeps_emit e : routine_event e -> keeps J (emit e).
Proof. intros He w Hw. cbn. now apply J_routine. Qed.

Lemma keeps_mmio_read a : keeps J (mmio_read a).
Proof. intros w Hw. cbn. now apply J_routine. Qed.

Lemma keeps_command op : op = 1 \/ op = 3 \/ op = 7 -> keeps J (mmio_write cmd_cell op).
Proof. intros Hop. apply keeps_emit. cbn. auto. Qed.

Lemma keeps_getattr name : keeps J (getattr_decoder name).
Proof.
  unfold getattr_decoder. destruct (TMP2_decoder name);
    [apply keeps_ret | apply keeps_raise].
Qed.

Lemma keeps_poll fuel : keeps J (poll fuel).
Proof.
  induction fuel as [|fuel IH]; cbn [poll].
  - intros w Hw. exact Hw.
  - apply keeps_bind; [apply keeps_mmio_read|].
    intros c. destruct (c =? 3); [exact IH | apply keeps_ret].
Qed.

Lemma keeps_read fuel : keeps J (read fuel).
Proof.
  unfold read.
  apply keeps_bind; [apply keeps_command; auto|]. intros _.
  apply keeps_bind; [apply keeps_poll|]. intros _.
  apply keeps_bind; [apply keeps_mmio_read|]. intros v.
  apply keeps_bind; [intros w Hw; cbn; now apply J_value|]. intros _.
  apply keeps_bind; [apply keeps_getattr|]. intros f. apply keeps_ret.
Qed.

Lemma keeps_set_log_ms ms : keeps J (set_log_ms ms).
Proof.
  intros w Hw. unfold set_log_ms. destruct (Z.ltb_spec ms 0); [exact Hw|].
  cbn. now apply J_length.
Qed.

Lemma keeps_log_loop xs : forall cp, keeps J (log_loop xs cp).
Proof.
  induction xs as [|x xs IH]; intros cp; cbn [log_loop].
  - apply keeps_ret.
  - apply keeps_bind; [apply keeps_mmio_read|]. intros temp.
    apply keeps_bind; [apply keeps_getattr|]. intros f.
    apply keeps_bind; [apply keeps_emit; exact Logic.I|]. intros _. apply IH.
Qed.

Lemma keeps_print_log : keeps J print_log.
Proof.
  unfold print_log, stop_log.
  apply keeps_bind; [apply keeps_command; auto|]. intros _.
  apply keeps_bind; [apply keeps_mmio_read|]. intros p.
  destruct (log_window p) as [[cp e] count].
  apply keeps_bind; [apply keeps_emit; exact Logic.I|]. intros _.
  apply keeps_log_loop.
Qed.

Lemma keeps_perform fuel c : keeps J (perform fuel c).
Proof.
  destruct c; cbn [perform].
  - apply keeps_bind; [apply keeps_read|]. intros _. apply keeps_ret.
  - apply keeps_set_log_ms.
  - apply keeps_bind; [apply keeps_set_log_ms|]. intros _.
    apply keeps_command. auto.
  - apply keeps_command. auto.
  - apply keeps_print_log.
Qed.

Lemma keeps_run_calls cs : forall w,
  J (self w) (trace w) ->
  J (self (run_calls cs w)) (trace (run_calls cs w)).
Proof.
  induction cs as [|[fuel c] cs IH]; intros w Hw; cbn [run_calls]; trivial.
  apply IH, keeps_perform, Hw.
Qed.

End Frame.

Lemma last_write_snoc a tr e :
  last_write a (tr ++ [e]) =
  match e with
  | MmioWrite o v => if o =? a then Some v else last_write a tr
  | _ => last_write a tr
  end.
Proof. unfold last_write. rewrite fold_left_app. now destruct e. Qed.

(** X7: when the command cell is not the cell at +4, then in every
    state reached from a constructed instance by any calls, [log_ms] is
    the value the driver last wrote to the log-length cell, or 0 if it
    never wrote it. *)
Theorem log_ms_mirrors_length_cell pmod_id w0 cs :
  MAILBOX_PY2IOP_CMD_OFFSET <> 4 ->
  __init__ pmod_id = Returns w0 ->
  log_length_mirrored (self (run_calls cs w0)) (trace (run_calls cs w0)).
Proof.
  intros Hcmd Hinit. apply keeps_run_calls.
  - intros s tr e He Hj. unfold log_length_mirrored in *.
    rewrite last_write_snoc. destruct e as [|o v|o v|l]; trivial.
    destruct He as [-> _].
    destruct (Z.eqb_spec cmd_cell (MAILBOX_OFFSET + 4)) as [E|]; trivial.
    unfold cmd_cell in E. lia.
  - intros s tr v Hj. exact Hj.
  - intros s tr ms _ _. unfold log_length_mirrored.
    rewrite last_write_snoc, Z.eqb_refl. reflexivity.
  - unfold __init__ in Hinit.
    destruct (request_iop pmod_id PROGRAM); [|discriminate].
    injection Hinit as <-. reflexivity.
Qed.

(** X8: whatever calls are made on a constructed instance, every
    mailbox write is opcode 1, 3 or 7 to the command cell or a length
    that is not negative to the cell at +4. *)
Theorem session_writes_follow_protocol pmod_id w0 cs :
  __init__ pmod_id = Returns w0 ->
  Forall protocol_event (trace (run_calls cs w0)).
Proof.
  intros Hinit.
  apply (keeps_run_calls (fun _ tr => Forall protocol_event tr)).
  - intros s tr e He Hj. apply Forall_app. split; [exact Hj|].
    constructor; [|constructor].
    destruct e as [|o v|o v|l]; cbn in *; auto.
  - intros s tr v Hj. exact Hj.
  - intros s tr ms Hms Hj. apply Forall_app. split; [exact Hj|].
    constructor; [|constructor]. cbn. right. auto.
  - unfold __init__ in Hinit.
    destruct (request_iop pmod_id PROGRAM); [|discriminate].
    injection Hinit as <-. cbn. constructor; [exact Logic.I | constructor].
Qed.

(** X6: the dump returns normally exactly when the end pointer it reads
    is not positive; in every case it leaves the instance as it was and
    its only mailbox write is opcode 1 to the command cell. *)
Theorem print_log_returns_iff_empty w :
  let p := mmio_word (nreads w) (MAILBOX_OFFSET + 8) in
  (fst (print_log w) = Returns tt <-> p <= 0) /\
  self (snd (print_log w)) = self w /\
  filter is_write (trace (snd (print_log w))) =
    filter is_write (trace w) ++ [MmioWrite cmd_cell 1].
Proof.
  cbv zeta.
  destruct (Z_le_gt_dec (mmio_word (nreads w) (MAILBOX_OFFSET + 8)) 0) as [Hp | Hp].
  - rewrite (print_log_empty w Hp). cbn [fst snd self trace].
    split; [tauto|]. split; [reflexivity|]. now rewrite filter_app.
  - assert (Hp1 : 1 <= mmio_word (nreads w) (MAILBOX_OFFSET + 8)) by lia.
    rewrite (print_log_run w Hp1). cbn [fst snd self trace].
    split; [|split; [reflexivity | now rewrite filter_app]].
    split; [discriminate | lia].
Qed.

(** X9: [start_log()] called without argument after [set_log_ms(ms)]
    discards the configured length: [log_ms] and the log-length cell are
    set back to 0 before opcode 7 is written. *)
Theorem start_log_default_resets_length ms w :
  0 <= ms ->
  exists w',
    bind (set_log_ms ms) (fun _ => start_log_default) w = (Returns tt, w') /\
    log_ms (self w') = 0 /\
    trace w' = trace w ++ [MmioWrite (MAILBOX_OFFSET + 4) ms;
                           MmioWrite (MAILBOX_OFFSET + 4) 0;
                           MmioWrite cmd_cell 7].
Proof.
  intros Hms. eexists. unfold bind at 1.
  rewrite (set_log_ms_accepted ms w Hms).
  unfold start_log_default, start_log, bind.
  rewrite set_log_ms_accepted by lia.
  unfold mmio_write, emit. cbn [self nreads trace log_ms with_log_ms].
  split; [reflexivity|]. split; [reflexivity|].
  now rewrite <- !app_assoc.
Qed.

End SessionProperties.

(** * The statements at concrete inputs *)

Lemma read_polls_until_cleared_witness :
  (exists k, slow_reader (0 + k) 0x7ffc <> 3) /\
  (exists k0,
     (forall i, (i < k0)%nat -> slow_reader (0 + i) 0x7ffc = 3) /\
     slow_reader (0 + k0) 0x7ffc <> 3 /\
     forall fuel, (k0 < fuel)%nat ->
       fst (@read (bench slow_reader) fuel (fresh sensor)) =
       Returns (_reg2float (slow_reader (0 + S k0) 0x7000))) /\
  (forall k : nat, (fun _ _ => 3) (0 + k)%nat 0x7ffc = 3) /\
  (forall fuel,
     fst (@read (bench (fun _ _ => 3)) fuel (fresh sensor)) = Spins).
Proof.
  assert (Hclear : exists k, slow_reader (0 + k) 0x7ffc <> 3)
    by (exists 2%nat; discriminate).
  assert (Hstuck : forall k : nat, (fun (_ : nat) (_ : Z) => 3) (0 + k)%nat 0x7ffc = 3)
    by reflexivity.
  split; [exact Hclear|]. split; [|split; [exact Hstuck|]].
  - destruct (proj1 (@read_polls_until_cleared (bench slow_reader)
                       (fresh sensor)) Hclear) as (k0 & Hb & Hd & Hr).
    exists k0. split; [exact Hb|]. split; [exact Hd|].
    intros fuel Hfuel. now rewrite (Hr fuel Hfuel).
  - intros fuel.
    now rewrite (proj2 (@read_polls_until_cleared (bench (fun _ _ => 3))
                          (fresh sensor)) Hstuck fuel).
Defined.

Lemma set_log_ms_checks_sign_witness :
  (-1 < 0 /\
   @set_log_ms (bench (logger 0)) (-1) (fresh sensor) =
   (Raises (ValueError "Log length should not be less than 0."),
    fresh sensor)) /\
  (0 <= 250 /\
   @set_log_ms (bench (logger 0)) 250 (fresh sensor) =
   (Returns tt,
    {| self := with_log_ms 250 sensor; nreads := 0;
       trace := [MmioWrite 0x7004 250] |})).
Proof.
  split; split.
  - reflexivity.
  - apply (proj1 (@set_log_ms_checks_sign (bench (logger 0)) (-1)
                    (fresh sensor))). reflexivity.
  - discriminate.
  - apply (proj2 (@set_log_ms_checks_sign (bench (logger 0)) 250
                    (fresh sensor))). discriminate.
Defined.

Lemma start_stop_log_writes_witness :
  0 <= 250 /\
  @start_log (bench (logger 0)) 250 (fresh sensor) =
  (Returns tt,
   {| self := with_log_ms 250 sensor; nreads := 0;
      trace := [MmioWrite 0x7004 250; MmioWrite 0x7ffc 7] |}) /\
  @stop_log (bench (logger 0)) (fresh sensor) =
  (Returns tt,
   {| self := sensor; nreads := 0; trace := [MmioWrite 0x7ffc 1] |}).
Proof.
  split; [discriminate|].
  apply (@start_stop_log_writes (bench (logger 0)) 250 (fresh sensor)).
  discriminate.
Defined.

Lemma log_ms_never_negative_witness :
  @__init__ (bench (logger 0)) 1 =
    Returns {| self := sensor; nreads := 0; trace := [IopStart] |} /\
  log_ms sensor = 0 /\
  0 <= log_ms (self (fresh sensor)) /\
  0 <= log_ms (self (snd (@perform (bench (logger 0)) 3 (CallStartLog 250)
                            (fresh sensor)))).
Proof.
  assert (Hinit : @__init__ (bench (logger 0)) 1 =
            Returns {| self := sensor; nreads := 0; trace := [IopStart] |})
    by reflexivity.
  assert (Hinv : 0 <= log_ms (self (fresh sensor))) by discriminate.
  split; [exact Hinit|]. split; [|split; [exact Hinv|]].
  - exact (proj1 (@log_ms_never_negative (bench (logger 0)) 1 _ 3
                    (CallStartLog 250) (fresh sensor)) Hinit).
  - exact (proj2 (@log_ms_never_negative (bench (logger 0)) 1
                    (fresh sensor) 3 (CallStartLog 250) (fresh sensor)) Hinv).
Defined.

Lemma start_log_negative_atomic_witness :
  -1 < 0 /\
  @start_log (bench (logger 0)) (-1) (fresh sensor) =
  (Raises (ValueError "Log length should not be less than 0."),
   fresh sensor).
Proof.
  split; [reflexivity|].
  apply (@start_log_negative_atomic (bench (logger 0)) (-1) (fresh sensor)).
  reflexivity.
Defined.

Lemma print_log_reads_from_slot_0_witness :
  logger 1200 0 0x7008 = 1200 /\
  @print_log (bench (logger 1200)) (fresh sensor) =
    @log_loop (bench (logger 1200)) (range 1000) 201
      {| self := sensor; nreads := 1;
         trace := [MmioWrite 0x7ffc 1; MmioRead 0x7008 1200;
                   Print (Text header)] |} /\
  1 <= 1200 /\
  hd_error (@dump_reads (bench (logger 1200)) (fresh sensor)) = Some 0x700c.
Proof.
  assert (Hp : logger 1200 0 0x7008 = 1200) by reflexivity.
  assert (Hge : 1 <= 1200) by discriminate.
  split; [exact Hp|].
  destruct (@print_log_reads_from_slot_0 (bench (logger 1200))
              (fresh sensor) 1200 Hp) as (Hrun & _ & Hfirst).
  split; [exact Hrun|]. split; [exact Hge | exact (Hfirst Hge)].
Defined.

(** C1, as the specification words it, fails: with the end pointer at
    1200 the first raw word read is not that of slot 200. *)
Lemma print_log_1200_not_slot_200 :
  ~ (forall (P : Platform) (w : world) (p : Z),
       mmio_word (nreads w) (MAILBOX_OFFSET + 8) = p ->
       1000 <= p ->
       hd_error (dump_reads w) = Some (slot_offset (p - 1000))).
Proof.
  intros Hall.
  specialize (Hall (bench (logger 1200)) (fresh sensor) 1200
                   eq_refl ltac:(discriminate)).
  vm_compute in Hall. discriminate.
Qed.

Lemma print_log_raises_witness :
  1 <= snd (log_window (logger 1 0 0x7008)) /\
  fst (@print_log (bench (logger 1)) (fresh sensor)) =
    Raises (AttributeError "reg2float") /\
  filter is_entry (trace (snd (@print_log (bench (logger 1)) (fresh sensor))))
    = [].
Proof.
  assert (Hc : 1 <= snd (log_window (logger 1 0 0x7008))) by discriminate.
  split; [exact Hc|].
  exact (@print_log_raises (bench (logger 1)) (fresh sensor) Hc).
Defined.

Lemma log_ms_mirrors_length_cell_witness :
  0xffc <> 4 /\
  @__init__ (bench (logger 0)) 1 =
    Returns {| self := sensor; nreads := 0; trace := [IopStart] |} /\
  log_ms (self (@run_calls (bench (logger 0))
                  [(1%nat, CallSetLogMs 250); (1%nat, CallSetLogMs (-5));
                   (1%nat, CallPrintLog)]
                  {| self := sensor; nreads := 0; trace := [IopStart] |}))
  = 250.
Proof.
  assert (Hcmd : 0xffc <> 4) by discriminate.
  assert (Hinit : @__init__ (bench (logger 0)) 1 =
            Returns {| self := sensor; nreads := 0; trace := [IopStart] |})
    by reflexivity.
  split; [exact Hcmd|]. split; [exact Hinit|].
  exact (@log_ms_mirrors_length_cell (bench (logger 0)) 1 _
           [(1%nat, CallSetLogMs 250); (1%nat, CallSetLogMs (-5));
            (1%nat, CallPrintLog)] Hcmd Hinit).
Defined.

Lemma session_writes_follow_protocol_witness :
  @__init__ (bench slow_reader) 1 =
    Returns {| self := sensor; nreads := 0; trace := [IopStart] |} /\
  Forall (@protocol_event (bench slow_reader))
    (trace (@run_calls (bench slow_reader)
              [(5%nat, CallRead); (1%nat, CallStartLog 250);
               (1%nat, CallStartLog (-1)); (1%nat, CallPrintLog)]
              {| self := sensor; nreads := 0; trace := [IopStart] |})).
Proof.
  assert (Hinit : @__init__ (bench slow_reader) 1 =
            Returns {| self := sensor; nreads := 0; trace := [IopStart] |})
    by reflexivity.
  split; [exact Hinit|].
  exact (@session_writes_follow_protocol (bench slow_reader) 1 _
           [(5%nat, CallRead); (1%nat, CallStartLog 250);
            (1%nat, CallStartLog (-1)); (1%nat, CallPrintLog)] Hinit).
Defined.

Lemma start_log_default_resets_length_witness :
  0 <= 250 /\
  exists w',
    bind (@set_log_ms (bench (logger 0)) 250)
         (fun _ => @start_log_default (bench (logger 0))) (fresh sensor)
      = (Returns tt, w') /\
    log_ms (self w') = 0.
Proof.
  assert (Hms : 0 <= 250) by discriminate.
  split; [exact Hms|].
  destruct (@start_log_default_resets_length (bench (logger 0)) 250
              (fresh sensor) Hms) as (w' & Hrun & Hlog & _).
  exists w'. split; [exact Hrun | exact Hlog].
Defined.
